(** * MAPIP DAG-to-DAG instruction selection: the addressing-mode matcher

    A shallow embedding of [MAPIPISelDAGToDAG.cpp]: the address-mode record
    [MAPIPISelAddressMode], the matchers [MatchWrapper], [MatchAddressBase]
    and [MatchAddress], the operand synthesis of [SelectAddr], the
    inline-assembly adapter [SelectInlineAsmMemoryOperand] and the node
    selector [Select].

    The matchers only read the graph, so an address expression is embedded
    as the (finite, acyclic) unfolding of its node: a value of [SDNode].
    [Select] rewrites the graph in place; it is embedded over a store of
    identified nodes ([Graph.SelectionDAG]). *)

From stdpp Require Import base option list strings gmap fin_maps.
From Stdlib Require Import ZArith Lia Ascii.

Local Open Scope Z_scope.

(** ** Machine integers *)

(** [uint64_t], [int64_t], [int] and [int16_t] conversions of an integer:
    the value modulo the width, read unsigned or in two's complement. *)
Definition uint64_t (z : Z) : Z := z mod 2 ^ 64.
Definition int64_t (z : Z) : Z := (z + 2 ^ 63) mod 2 ^ 64 - 2 ^ 63.
Definition int32_t (z : Z) : Z := (z + 2 ^ 31) mod 2 ^ 32 - 2 ^ 31.
Definition int16_t (z : Z) : Z := (z + 2 ^ 15) mod 2 ^ 16 - 2 ^ 15.

(** ** Selection-DAG values *)

Inductive MVT : Type := i1 | i8 | i16 | i32 | i64 | OtherVT (n : nat).

(** IR objects a node may point to; pointers are identities. *)
Definition GlobalValue := string.
Definition ConstantRef := positive.
Definition BlockAddressRef := positive.

(** A value of the DAG.  One constructor per node class the selector
    inspects; [isTarget] tells [ISD::X] from [ISD::TargetX] (both belong to
    the same [XSDNode] class, so [dyn_cast] accepts both while a [switch]
    on the opcode tells them apart).  [Val] of a constant is what
    [getSExtValue()] returns.  The result number of an [SDValue] is never
    inspected by this file and is left out, and a node has the one result
    type [VT]. *)
#[warnings="-register-all"]
Inductive SDNode : Type :=
| Constant (VT : MVT) (isTarget : bool) (Val : Z)
| FrameIndex (VT : MVT) (isTarget : bool) (FI : Z)
| GlobalAddress (VT : MVT) (isTarget : bool) (G : GlobalValue)
    (Offset : Z) (TargetFlags : Z)
| ConstantPool (VT : MVT) (isTarget : bool) (C : ConstantRef)
    (Alignment : Z) (Offset : Z) (TargetFlags : Z)
| ExternalSymbol (VT : MVT) (isTarget : bool) (Symbol : string)
    (TargetFlags : Z)
| JumpTable (VT : MVT) (isTarget : bool) (JTI : Z) (TargetFlags : Z)
| BlockAddress (VT : MVT) (isTarget : bool) (BA : BlockAddressRef)
    (TargetFlags : Z)
| Register (VT : MVT) (Reg : Z)
| Wrapper (VT : MVT) (Op0 : SDNode)
| ADD (VT : MVT) (Op0 Op1 : SDNode)
| OR (VT : MVT) (Op0 Op1 : SDNode)
| OtherNode (VT : MVT) (Opc : nat) (Ops : list SDNode).

Definition getValueType (N : SDNode) : MVT :=
  match N with
  | Constant VT _ _ | FrameIndex VT _ _ | GlobalAddress VT _ _ _ _
  | ConstantPool VT _ _ _ _ _ | ExternalSymbol VT _ _ _ | JumpTable VT _ _ _
  | BlockAddress VT _ _ _ | Register VT _ | Wrapper VT _ | ADD VT _ _
  | OR VT _ _ | OtherNode VT _ _ => VT
  end.

(** [N.getOperand(i)]; [None] is the out-of-range assertion. *)
Definition getOperand (N : SDNode) (i : nat) : option SDNode :=
  match N with
  | Wrapper _ Op0 => [Op0] !! i
  | ADD _ Op0 Op1 | OR _ Op0 Op1 => [Op0; Op1] !! i
  | OtherNode _ _ Ops => Ops !! i
  | _ => None
  end.

(** An [SDValue]: a node reference, null ([None]) when default-constructed. *)
Definition SDValue : Type := option SDNode.

(** ** The address mode *)

(** [BaseType] with the member of [Base] it discriminates ("This is really
    a union, discriminated by BaseType!").  [RegBase None] is the null
    [SDValue] the constructor leaves in [Base.Reg]. *)
Inductive BaseKind : Type :=
| RegBase (Reg : SDValue)
| FrameIndexBase (FrameIndex : Z).

Record MAPIPISelAddressMode : Type := mkAM {
  Base : BaseKind;
  Disp : Z;                          (* int16_t *)
  GV : option GlobalValue;           (* null = None *)
  CP : option ConstantRef;
  BlockAddr : option BlockAddressRef;
  ES : option string;
  JT : Z;                            (* -1 = none *)
  Align : Z
}.

(** The constructor [MAPIPISelAddressMode()]. *)
Definition AM_init : MAPIPISelAddressMode :=
  {| Base := RegBase None; Disp := 0; GV := None; CP := None;
     BlockAddr := None; ES := None; JT := -1; Align := 0 |}.

Definition set_Base (b : BaseKind) (AM : MAPIPISelAddressMode) :=
  mkAM b (Disp AM) (GV AM) (CP AM) (BlockAddr AM) (ES AM) (JT AM) (Align AM).
Definition set_Disp (d : Z) (AM : MAPIPISelAddressMode) :=
  mkAM (Base AM) d (GV AM) (CP AM) (BlockAddr AM) (ES AM) (JT AM) (Align AM).
Definition set_GV (g : option GlobalValue) (AM : MAPIPISelAddressMode) :=
  mkAM (Base AM) (Disp AM) g (CP AM) (BlockAddr AM) (ES AM) (JT AM) (Align AM).
Definition set_CP (c : option ConstantRef) (AM : MAPIPISelAddressMode) :=
  mkAM (Base AM) (Disp AM) (GV AM) c (BlockAddr AM) (ES AM) (JT AM) (Align AM).
Definition set_BlockAddr (b : option BlockAddressRef)
    (AM : MAPIPISelAddressMode) :=
  mkAM (Base AM) (Disp AM) (GV AM) (CP AM) b (ES AM) (JT AM) (Align AM).
Definition set_ES (s : option string) (AM : MAPIPISelAddressMode) :=
  mkAM (Base AM) (Disp AM) (GV AM) (CP AM) (BlockAddr AM) s (JT AM) (Align AM).
Definition set_JT (j : Z) (AM : MAPIPISelAddressMode) :=
  mkAM (Base AM) (Disp AM) (GV AM) (CP AM) (BlockAddr AM) (ES AM) j (Align AM).
Definition set_Align (a : Z) (AM : MAPIPISelAddressMode) :=
  mkAM (Base AM) (Disp AM) (GV AM) (CP AM) (BlockAddr AM) (ES AM) (JT AM) a.

(** [p != 0] on a pointer. *)
Definition nonnull {A : Type} (p : option A) : bool :=
  match p with Some _ => true | None => false end.

Definition hasSymbolicDisplacement (AM : MAPIPISelAddressMode) : bool :=
  nonnull (GV AM) || nonnull (CP AM) || nonnull (ES AM)
  || negb (JT AM =? -1).

(** [BaseType == RegBase && Base.Reg.getNode() == 0]. *)
Definition base_is_free (AM : MAPIPISelAddressMode) : bool :=
  match Base AM with RegBase None => true | _ => false end.

(** ** The matcher monad *)

(** A call either returns or dies on a failed [cast<>]/[assert]. *)
Inductive Outcome (A : Type) : Type :=
| Returns (a : A)
| Aborts.
Arguments Returns {A} a.
Arguments Aborts {A}.

(** The matchers take the address mode by reference: a computation maps
    the mode on entry to a result and the mode on exit. *)
Definition Matcher (A : Type) : Type :=
  MAPIPISelAddressMode → Outcome (A * MAPIPISelAddressMode).

Definition ret {A : Type} (a : A) : Matcher A := λ AM, Returns (a, AM).
Definition bind {A B : Type} (m : Matcher A) (f : A → Matcher B)
    : Matcher B :=
  λ AM,
    match m AM with
    | Returns (a, AM') => f a AM'
    | Aborts => Aborts
    end.

Notation "'let*' x := m 'in' k" := (bind m (λ x, k))
  (at level 10, x name, m at level 100, k at level 200).
Notation "m1 >> m2" := (bind m1 (λ _, m2))
  (at level 100, m2 at level 200, right associativity).

Definition getAM : Matcher MAPIPISelAddressMode := λ AM, Returns (AM, AM).
Definition putAM (AM' : MAPIPISelAddressMode) : Matcher unit :=
  λ _, Returns ((), AM').
Definition abort {A : Type} : Matcher A := λ _, Aborts.

(** [!m1 && !m2]: [m2] runs only when [m1] returned false. *)
Definition both_match (m1 m2 : Matcher bool) : Matcher bool :=
  let* failed := m1 in
  if failed then ret false
  else let* failed := m2 in ret (negb failed).

(** ** The matchers *)

Section Matchers.

(** [CurDAG->MaskedValueIsZero(Op, Mask)]: the known-bits query of the
    surrounding graph, read-only.  The mask is the constant operand of the
    OR, given by its value. *)
Variable MaskedValueIsZero : SDNode → Z → bool.

Definition MatchWrapper (N : SDNode) : Matcher bool :=
  let* AM := getAM in
  if hasSymbolicDisplacement AM then ret true
  else
    match getOperand N 0 with
    | None => abort
    | Some (GlobalAddress _ _ G Offset _) =>
        putAM (set_Disp (int16_t (int64_t (Disp AM + Offset)))
                 (set_GV (Some G) AM)) >>
        ret false
    | Some (ConstantPool _ _ C Alignment Offset _) =>
        putAM (set_Disp (int16_t (int32_t (Disp AM + Offset)))
                 (set_Align Alignment (set_CP (Some C) AM))) >>
        ret false
    | Some (ExternalSymbol _ _ Sym _) =>
        putAM (set_ES (Some Sym) AM) >> ret false
    | Some (JumpTable _ _ J _) =>
        putAM (set_JT J AM) >> ret false
    | Some (BlockAddress _ _ BA _) =>
        putAM (set_BlockAddr (Some BA) AM) >> ret false
    | Some _ => abort
    end.

Definition MatchAddressBase (N : SDNode) : Matcher bool :=
  let* AM := getAM in
  if negb (base_is_free AM) then ret true
  else putAM (set_Base (RegBase (Some N)) AM) >> ret false.

Fixpoint MatchAddress (N : SDNode) : Matcher bool :=
  match N with
  | Constant _ false CVal =>
      let Val := uint64_t CVal in
      let* AM := getAM in
      putAM (set_Disp (int16_t (uint64_t (uint64_t (Disp AM) + Val))) AM) >>
      ret false
  | Wrapper _ _ =>
      let* failed := MatchWrapper N in
      if negb failed then ret false else MatchAddressBase N
  | FrameIndex _ false FI =>
      let* AM := getAM in
      if base_is_free AM
      then putAM (set_Base (FrameIndexBase FI) AM) >> ret false
      else MatchAddressBase N
  | ADD _ Op0 Op1 =>
      let* Backup := getAM in
      let* ok := both_match (MatchAddress Op0) (MatchAddress Op1) in
      if ok then ret false
      else
        putAM Backup >>
        let* ok := both_match (MatchAddress Op1) (MatchAddress Op0) in
        if ok then ret false
        else putAM Backup >> MatchAddressBase N
  | OR _ Op0 Op1 =>
      match Op1 with
      | Constant _ _ CVal =>
          let* Backup := getAM in
          let Offset := uint64_t CVal in
          let* failed := MatchAddress Op0 in
          let* AM := getAM in
          if negb failed && negb (nonnull (GV AM))
             && MaskedValueIsZero Op0 CVal
          then
            putAM (set_Disp
                     (int16_t (uint64_t (uint64_t (Disp AM) + Offset))) AM) >>
            ret false
          else putAM Backup >> MatchAddressBase N
      | _ => MatchAddressBase N
      end
  | _ => MatchAddressBase N
  end.

(** [TLI.getPointerTy()]. *)
Variable PointerTy : MVT.

(** The operands [SelectAddr] builds from a matched mode (the part of its
    body after the match): [Base] and [Disp].  The operand nodes the graph
    hands out ([getRegister], [getTargetFrameIndex], [getTargetConstant],
    ...) are the values of [SDNode] with these fields; the target flags
    are 0 throughout. *)
Definition SelectAddr_operands (VT : MVT) (AM : MAPIPISelAddressMode)
    : SDValue * SDValue :=
  let AM :=
    match Base AM with
    | RegBase None => set_Base (RegBase (Some (Register VT 0))) AM
    | _ => AM
    end in
  let BaseOp :=
    match Base AM with
    | FrameIndexBase FI => Some (FrameIndex PointerTy true FI)
    | RegBase Reg => Reg
    end in
  let DispOp :=
    match GV AM with
    | Some G => GlobalAddress i16 true G (Disp AM) 0
    | None =>
    match CP AM with
    | Some C => ConstantPool i16 true C (Align AM) (Disp AM) 0
    | None =>
    match ES AM with
    | Some Sym => ExternalSymbol i16 true Sym 0
    | None =>
    if negb (JT AM =? -1) then JumpTable i16 true (JT AM) 0
    else
    match BlockAddr AM with
    | Some BA => BlockAddress i32 true BA 0
    | None => Constant i16 true (Disp AM)
    end end end end in
  (BaseOp, Some DispOp).

(** [SelectAddr]: [None] is the C++ [false] (no operands written). *)
Definition SelectAddr (N : SDNode) : Outcome (option (SDValue * SDValue)) :=
  match MatchAddress N AM_init with
  | Aborts => Aborts
  | Returns (true, _) => Returns None
  | Returns (false, AM) =>
      Returns (Some (SelectAddr_operands (getValueType N) AM))
  end.

(** [SelectInlineAsmMemoryOperand]: the returned flag and [OutOps] on
    exit. *)
Definition SelectInlineAsmMemoryOperand (Op : SDNode)
    (ConstraintCode : ascii) (OutOps : list SDValue)
    : Outcome (bool * list SDValue) :=
  if Ascii.eqb ConstraintCode "m"%char then
    match SelectAddr Op with
    | Aborts => Aborts
    | Returns None => Returns (true, OutOps)
    | Returns (Some (Op0, Op1)) => Returns (false, OutOps ++ [Op0; Op1])
    end
  else Returns (true, OutOps).

End Matchers.

(** ** The node selector *)

(** [Select] morphs nodes in place, so here the graph is a store of nodes
    named by their identity, with operand edges between identities; the
    consumers of a node are the operand edges that point to it. *)
Module Graph.

Definition NodeId : Type := positive.

(** Machine opcodes of the target ([MAPIP::...]). *)
Inductive MachineOpcode : Type := ADD16ri | OtherMI (n : nat).

(** Opcode and payload of a node. *)
Inductive NodeKind : Type :=
| KFrameIndex (isTarget : bool) (FI : Z)
| KConstant (isTarget : bool) (Val : Z)
| KMachine (MOpc : MachineOpcode)
| KOther (Opc : nat).

Record DAGNode : Type := mkNode {
  Kind : NodeKind;
  ValueTypes : list MVT;
  Operands : list NodeId
}.

Abbreviation SelectionDAG := (gmap NodeId DAGNode).

#[global] Instance MVT_eq_dec : EqDecision MVT.
Proof. solve_decision. Defined.

Definition isMachineOpcode (n : DAGNode) : bool :=
  match Kind n with KMachine _ => true | _ => false end.

(** Modelled from the spec: the consumers of a node ("if the original node
    has exactly one consumer"), which the source asks of the node itself
    ([hasOneUse]); here they are the operand edges of the whole graph that
    point to [N]. *)
Definition uses (N : NodeId) (dag : SelectionDAG) : list NodeId :=
  filter (λ x, x = N) (map_to_list dag ≫= λ kv, Operands kv.2).

Definition hasOneUse (N : NodeId) (dag : SelectionDAG) : bool :=
  bool_decide (length (uses N dag) = 1%nat).

(** Modelled from the spec: the graph's node constructors, which the
    source only calls ("constructing new constant/operand values", "a new
    node is allocated").  A node is built under an identity the graph does
    not use yet. *)
Definition allocate (n : DAGNode) (dag : SelectionDAG)
    : NodeId * SelectionDAG :=
  let id := fresh (dom dag) in (id, <[id := n]> dag).

(** Modelled from the spec: the target frame reference of a slot. *)
Definition getTargetFrameIndex (FI : Z) (VT : MVT) :=
  allocate (mkNode (KFrameIndex true FI) [VT] []).

(** Modelled from the spec: a target constant. *)
Definition getTargetConstant (Val : Z) (VT : MVT) :=
  allocate (mkNode (KConstant true Val) [VT] []).

(** Modelled from the spec: a newly allocated machine node of two
    operands. *)
Definition getMachineNode (MOpc : MachineOpcode) (VT : MVT)
    (Op1 Op2 : NodeId) :=
  allocate (mkNode (KMachine MOpc) [VT] [Op1; Op2]).

(** Modelled from the spec: [SelectNodeTo], which the source only calls
    ("the replacement reuses the original node's identity (in-place
    rewrite)").  The node keeps its identity and takes the machine opcode,
    result type and operands given. *)
Definition SelectNodeTo (N : NodeId) (MOpc : MachineOpcode) (VT : MVT)
    (Op1 Op2 : NodeId) (dag : SelectionDAG) : NodeId * SelectionDAG :=
  (N, <[N := mkNode (KMachine MOpc) [VT] [Op1; Op2]]> dag).

Section Selector.

(** [SelectCode], the generated table-driven matcher. *)
Variable SelectCode :
  NodeId → SelectionDAG → Outcome (option NodeId * SelectionDAG).

(** [Select]: the node returned ([None] is [NULL]) and the graph on exit.
    A node outside the graph, or a frame index that is not [i16], is the
    assertion failure. *)
Definition Select (Node : NodeId) (dag : SelectionDAG)
    : Outcome (option NodeId * SelectionDAG) :=
  match dag !! Node with
  | None => Aborts
  | Some n =>
      if isMachineOpcode n then Returns (None, dag)
      else
        match Kind n with
        | KFrameIndex false FI =>
            if decide (ValueTypes n !! 0%nat = Some i16) then
              let '(TFI, dag) := getTargetFrameIndex FI i16 dag in
              if hasOneUse Node dag then
                let '(Zero, dag) := getTargetConstant 0 i16 dag in
                let '(Res, dag) := SelectNodeTo Node ADD16ri i16 TFI Zero dag in
                Returns (Some Res, dag)
              else
                let '(Zero, dag) := getTargetConstant 0 i16 dag in
                let '(Res, dag) := getMachineNode ADD16ri i16 TFI Zero dag in
                Returns (Some Res, dag)
            else Aborts
        | _ => SelectCode Node dag
        end
  end.

End Selector.

End Graph.

(** ** The tool runner *)

(** [ToolRunner.cpp] runs external tools.  A call is embedded as a
    function from the history of what the process did so far to its
    result and the history on exit; what the system layer ([sys::Program],
    [sys::Path], [FindExecutable], the file streams) answers is given by a
    [System], which may look at the whole history.  The [DEBUG] output is
    left out. *)
Module Tools.

(** [sys::Path], by the string it holds. *)
Abbreviation Path := string.

(** The string holding a newline. *)
Definition NL : string := String "010"%char "".

(** What the process does to the outside.  An argument vector is the list
    of its entries before the terminating null. *)
Inductive Event : Type :=
| Ran (Program : Path) (Args : list string) (StdIn StdOut StdErr : Path)
    (NumSeconds : N)                    (* sys::Program::ExecuteAndWait *)
| Printed (s : string)                  (* std::cout, flushed *)
| Complained (s : string)               (* std::cerr *)
| MadeUnique (requested given : Path)   (* sys::Path::makeUnique *)
| Destroyed (p : Path)                  (* sys::Path::destroyFile *)
| Opened (p : Path)                     (* std::ifstream on the file *)
| Looked (ExeName ProgramPath : string) (* FindExecutable *)
| RemoverGone (p : Path).               (* end of life of a FileRemover *)

(** How a call ends: it returns, throws [ToolExecutionError], or ends the
    process with [exit]. *)
Inductive Result (A : Type) : Type :=
| Done (a : A)
| Throws (Message : string)
| Exits (status : Z).
Arguments Done {A} a.
Arguments Throws {A} Message.
Arguments Exits {A} status.

(** The answers of the system layer, each from the history up to and
    including the request ([unique_name] is given the request apart). *)
Record System : Type := {
  exit_status : list Event → Z;
  unique_name : list Event → Path → Path;  (* history before, request *)
  contents : list Event → option string;   (* None: cannot be opened *)
  found : list Event → Path                (* empty: not found *)
}.

(** What [config.h] and the compiler define. *)
Inductive SharedLibraryFlavour : Type := Sparc | ApplePowerPC | OtherHost.

Record Config : Type := {
  HAVE_LINK_R : bool;
  LTDL_SHLIB_EXT : string;
  shared_flavour : SharedLibraryFlavour;
  needs_fPIC : bool                        (* __ia64__ or __alpha__ *)
}.

Definition Tool (A : Type) : Type := list Event → Result A * list Event.

Definition tret {A : Type} (a : A) : Tool A := λ h, (Done a, h).
Definition tbind {A B : Type} (m : Tool A) (f : A → Tool B) : Tool B :=
  λ h,
    match m h with
    | (Done a, h') => f a h'
    | (Throws e, h') => (Throws e, h')
    | (Exits c, h') => (Exits c, h')
    end.

Notation "'let!' x := m 'in' k" := (tbind m (λ x, k))
  (at level 10, x name, m at level 100, k at level 200).

Definition throw {A : Type} (Message : string) : Tool A :=
  λ h, (Throws Message, h).
Definition exit {A : Type} (status : Z) : Tool A := λ h, (Exits status, h).
Definition emit (e : Event) : Tool unit := λ h, (Done (), h ++ [e]).

Definition cout (s : string) : Tool unit := emit (Printed s).
Definition cerr (s : string) : Tool unit := emit (Complained s).
Definition destroyFile (p : Path) : Tool unit := emit (Destroyed p).

Definition makeUnique (sys : System) (p : Path) : Tool Path :=
  λ h, let given := unique_name sys h p in
       (Done given, h ++ [MadeUnique p given]).

Definition readFile (sys : System) (p : Path) : Tool (option string) :=
  λ h, let h' := h ++ [Opened p] in (Done (contents sys h'), h').

Definition FindExecutable (sys : System) (ExeName ProgramPath : string)
    : Tool Path :=
  λ h, let h' := h ++ [Looked ExeName ProgramPath] in (Done (found sys h'), h').

(** An automatic [FileRemover] around [body]: its life ends when [body]
    returns or throws; [exit] ends no automatic object. *)
Definition with_FileRemover {A : Type} (p : Path) (body : Tool A) : Tool A :=
  λ h,
    match body h with
    | (Exits c, h') => (Exits c, h')
    | (r, h') => (r, h' ++ [RemoverGone p])
    end.

(** [std::vector::push_back], and the loops that push a whole vector. *)
Definition push_back {A : Type} (v : list A) (x : A) : list A := v ++ [x].
Definition push_all {A : Type} (v xs : list A) : list A :=
  foldl push_back v xs.

Definition RunProgramWithTimeout (sys : System) (ProgramPath : Path)
    (Args : list string) (StdInFile StdOutFile StdErrFile : Path)
    (NumSeconds : N) : Tool Z :=
  λ h, let h' := h ++ [Ran ProgramPath Args StdInFile StdOutFile StdErrFile
                         NumSeconds] in
       (Done (exit_status sys h'), h').

(** [ProcessFailure]; it has no way to return. *)
Definition ProcessFailure (sys : System) (ProgPath : Path)
    (Args : list string) : Tool unit :=
  let OS := (NL +:+ "Error running tool:" +:+ NL +:+ " ")%string in
  let OS := foldl (λ OS Arg, OS +:+ " " +:+ Arg) OS Args in
  let OS := OS +:+ NL in
  let! ErrorFilename := makeUnique sys "error_messages" in
  let! _ := RunProgramWithTimeout sys ProgPath Args "" ErrorFilename
              ErrorFilename 0 in
  let! ErrorFile := readFile sys ErrorFilename in
  let OS := match ErrorFile with Some text => OS +:+ text | None => OS end in
  let! _ := destroyFile ErrorFilename in
  throw OS.

(** The vector-or-null argument of the constructors. *)
Definition ToolArgs_of (Args : option (list string)) : list string :=
  match Args with Some v => v | None => [] end.

Module LLI.

Record LLI : Type := new { LLIPath : string; ToolArgs : list string }.

(** The constructor [LLI(Path, Args)]. *)
Definition create_object (Path : string) (Args : option (list string)) :=
  new Path (ToolArgs_of Args).

Definition ExecuteProgram (sys : System) (this : LLI) (Bytecode : string)
    (Args : list string) (InputFile OutputFile : string)
    (SharedLibs : list string) (Timeout : N) : Tool Z :=
  if negb (bool_decide (SharedLibs = [])) then
    throw "LLI currently does not support loading shared libraries."
  else
    let LLIArgs := [] in
    let LLIArgs := push_back LLIArgs (LLIPath this) in
    let LLIArgs := push_back LLIArgs "-force-interpreter=true"%string in
    let LLIArgs := push_all LLIArgs (ToolArgs this) in
    let LLIArgs := push_back LLIArgs Bytecode in
    let LLIArgs := push_all LLIArgs Args in
    let! _ := cout "<lli>" in
    RunProgramWithTimeout sys (LLIPath this) LLIArgs InputFile OutputFile
      OutputFile Timeout.

End LLI.

(** [AbstractInterpreter::createLLI]: the interpreter (or null) and
    [Message]. *)
Definition createLLI (sys : System) (ProgPath : string)
    (ToolArgs : option (list string)) : Tool (option LLI.LLI * string) :=
  let! LLIPath := FindExecutable sys "lli" ProgPath in
  if negb (bool_decide (LLIPath = ""%string)) then
    tret (Some (LLI.create_object LLIPath ToolArgs),
          ("Found lli: " +:+ LLIPath +:+ NL)%string)
  else
    tret (None,
          ("Cannot find `lli' in executable directory or PATH!" +:+ NL)%string).

Module JIT.

Record JIT : Type := new { LLIPath : string; ToolArgs : list string }.

Definition create_object (Path : string) (Args : option (list string)) :=
  new Path (ToolArgs_of Args).

Definition ExecuteProgram (sys : System) (this : JIT) (Bytecode : string)
    (Args : list string) (InputFile OutputFile : string)
    (SharedLibs : list string) (Timeout : N) : Tool Z :=
  let JITArgs := [] in
  let JITArgs := push_back JITArgs (LLIPath this) in
  let JITArgs := push_back JITArgs "-force-interpreter=false"%string in
  let JITArgs := push_all JITArgs (ToolArgs this) in
  let JITArgs :=
    foldl (λ v lib, push_back (push_back v "-load"%string) lib) JITArgs
      SharedLibs in
  let JITArgs := push_back JITArgs Bytecode in
  let JITArgs := push_all JITArgs Args in
  let! _ := cout "<jit>" in
  RunProgramWithTimeout sys (LLIPath this) JITArgs InputFile OutputFile
    OutputFile Timeout.

End JIT.

Definition createJIT (sys : System) (ProgPath : string)
    (Args : option (list string)) : Tool (option JIT.JIT * string) :=
  let! LLIPath := FindExecutable sys "lli" ProgPath in
  if negb (bool_decide (LLIPath = ""%string)) then
    tret (Some (JIT.create_object LLIPath Args),
          ("Found lli: " +:+ LLIPath +:+ NL)%string)
  else
    tret (None,
          ("Cannot find `lli' in executable directory or PATH!" +:+ NL)%string).

Module GCC.

Inductive FileType : Type := AsmFile | CFile.

(** The class keeps the path it was created with. *)
Record GCC : Type := new { GCCPath : Path }.

Definition ExecuteProgram (cfg : Config) (sys : System) (this : GCC)
    (ProgramFile : string) (Args : list string) (fileType : FileType)
    (InputFile OutputFile : string) (SharedLibs : list string)
    (Timeout : N) : Tool Z :=
  let GCCArgs := [] in
  let GCCArgs := push_back GCCArgs (GCCPath this) in
  let GCCArgs := push_all GCCArgs SharedLibs in
  let GCCArgs := push_back GCCArgs "-x"%string in
  let GCCArgs :=
    match fileType with
    | CFile =>
        push_back (push_back GCCArgs "c"%string)
          "-fno-strict-aliasing"%string
    | AsmFile => push_back GCCArgs "assembler"%string
    end in
  let GCCArgs := push_back GCCArgs ProgramFile in
  let GCCArgs := push_back GCCArgs "-o"%string in
  let! OutputBinary := makeUnique sys (ProgramFile +:+ ".gcc.exe") in
  let GCCArgs := push_back GCCArgs OutputBinary in
  let GCCArgs := push_back GCCArgs "-lm"%string in
  let GCCArgs := push_back GCCArgs "-O2"%string in
  let GCCArgs :=
    if HAVE_LINK_R cfg then push_back GCCArgs "-Wl,-R."%string
    else GCCArgs in
  let! _ := cout "<gcc>" in
  let! failed := RunProgramWithTimeout sys (GCCPath this) GCCArgs "" "" "" 0 in
  let! _ :=
    if negb (failed =? 0)%Z then
      let! _ := ProcessFailure sys (GCCPath this) GCCArgs in exit 1
    else tret () in
  let ProgramArgs := [] in
  let ProgramArgs := push_back ProgramArgs OutputBinary in
  let ProgramArgs := push_all ProgramArgs Args in
  let! _ := cout "<program>" in
  with_FileRemover OutputBinary
    (RunProgramWithTimeout sys OutputBinary ProgramArgs InputFile OutputFile
       OutputFile Timeout).

(** [MakeSharedObject]: the returned flag and [OutputFile]. *)
Definition MakeSharedObject (cfg : Config) (sys : System) (this : GCC)
    (InputFile : string) (fileType : FileType) : Tool (Z * string) :=
  let! uniqueFilename := makeUnique sys (InputFile +:+ LTDL_SHLIB_EXT cfg) in
  let OutputFile := uniqueFilename in
  let GCCArgs :=
    [GCCPath this; "-x";
     match fileType with AsmFile => "assembler" | CFile => "c" end;
     "-fno-strict-aliasing"; InputFile]%string
    ++ match shared_flavour cfg with
       | Sparc => ["-G"]
       | ApplePowerPC =>
           ["-single_module"; "-dynamiclib"; "-undefined"; "dynamic_lookup"]
       | OtherHost => ["-shared"]
       end%string
    ++ (if needs_fPIC cfg then ["-fPIC"%string] else [])
    ++ ["-o"; OutputFile; "-O2"]%string in
  let! _ := cout "<gcc>" in
  let! failed := RunProgramWithTimeout sys (GCCPath this) GCCArgs "" "" "" 0 in
  if negb (failed =? 0)%Z then
    let! _ := ProcessFailure sys (GCCPath this) GCCArgs in
    tret (1%Z, OutputFile)
  else tret (0%Z, OutputFile).

(** [GCC::create]: the object (or null) and [Message]. *)
Definition create (sys : System) (ProgramPath : string)
    : Tool (option GCC * string) :=
  let! GCCPath := FindExecutable sys "gcc" ProgramPath in
  if bool_decide (GCCPath = ""%string) then
    tret (None,
          ("Cannot find `gcc' in executable directory or PATH!" +:+ NL)%string)
  else tret (Some (new GCCPath), ("Found gcc: " +:+ GCCPath +:+ NL)%string).

End GCC.

Module LLC.

(** The members [OutputAsm] and [ExecuteProgram] read. *)
Record LLC : Type := new {
  LLCPath : string;
  ToolArgs : list string;
  gcc : GCC.GCC
}.

(** [OutputAsm]: the value left in [OutputAsmFile]. *)
Definition OutputAsm (sys : System) (this : LLC) (Bytecode : string)
    : Tool Path :=
  let! uniqueFile := makeUnique sys (Bytecode +:+ ".llc.s") in
  let OutputAsmFile := uniqueFile in
  let LLCArgs := [] in
  let LLCArgs := push_back LLCArgs (LLCPath this) in
  let LLCArgs := push_all LLCArgs (ToolArgs this) in
  let LLCArgs := push_back LLCArgs "-o"%string in
  let LLCArgs := push_back LLCArgs OutputAsmFile in
  let LLCArgs := push_back LLCArgs "-f"%string in
  let LLCArgs := push_back LLCArgs Bytecode in
  let! _ := cout "<llc>" in
  let! failed := RunProgramWithTimeout sys (LLCPath this) LLCArgs "" "" "" 0 in
  let! _ :=
    if negb (failed =? 0)%Z then ProcessFailure sys (LLCPath this) LLCArgs
    else tret () in
  tret OutputAsmFile.

Definition compileProgram (sys : System) (this : LLC) (Bytecode : string)
    : Tool unit :=
  let! OutputAsmFile := OutputAsm sys this Bytecode in
  destroyFile OutputAsmFile.

Definition ExecuteProgram (cfg : Config) (sys : System) (this : LLC)
    (Bytecode : string) (Args : list string) (InputFile OutputFile : string)
    (SharedLibs : list string) (Timeout : N) : Tool Z :=
  let! OutputAsmFile := OutputAsm sys this Bytecode in
  with_FileRemover OutputAsmFile
    (GCC.ExecuteProgram cfg sys (gcc this) OutputAsmFile Args GCC.AsmFile
       InputFile OutputFile SharedLibs Timeout).

End LLC.

(** [AbstractInterpreter::createLLC]: what is handed to [new LLC] (or
    null) and [Message]. *)
Definition createLLC (sys : System) (ProgramPath : string)
    (Args : option (list string))
    : Tool (option (string * GCC.GCC * option (list string)) * string) :=
  let! LLCPath := FindExecutable sys "llc" ProgramPath in
  if bool_decide (LLCPath = ""%string) then
    tret (None,
          ("Cannot find `llc' in executable directory or PATH!" +:+ NL)%string)
  else
    let Message := ("Found llc: " +:+ LLCPath +:+ NL)%string in
    let! created := GCC.create sys ProgramPath in
    let '(gcc, Message) := created in
    match gcc with
    | None => let! _ := cerr (Message +:+ NL) in exit 1
    | Some gcc => tret (Some (LLCPath, gcc, Args), Message)
    end.

Module CBE.

Record CBE : Type := new {
  LLCPath : Path;
  ToolArgs : list string;
  gcc : GCC.GCC
}.

(** [OutputC]: the value left in [OutputCFile]. *)
Definition OutputC (sys : System) (this : CBE) (Bytecode : string)
    : Tool Path :=
  let! uniqueFile := makeUnique sys (Bytecode +:+ ".cbe.c") in
  let OutputCFile := uniqueFile in
  let LLCArgs := [] in
  let LLCArgs := push_back LLCArgs (LLCPath this) in
  let LLCArgs := push_all LLCArgs (ToolArgs this) in
  let LLCArgs := push_back LLCArgs "-o"%string in
  let LLCArgs := push_back LLCArgs OutputCFile in
  let LLCArgs := push_back LLCArgs "-march=c"%string in
  let LLCArgs := push_back LLCArgs "-f"%string in
  let LLCArgs := push_back LLCArgs Bytecode in
  let! _ := cout "<cbe>" in
  let! failed := RunProgramWithTimeout sys (LLCPath this) LLCArgs "" "" "" 0 in
  let! _ :=
    if negb (failed =? 0)%Z then ProcessFailure sys (LLCPath this) LLCArgs
    else tret () in
  tret OutputCFile.

Definition compileProgram (sys : System) (this : CBE) (Bytecode : string)
    : Tool unit :=
  let! OutputCFile := OutputC sys this Bytecode in
  destroyFile OutputCFile.

Definition ExecuteProgram (cfg : Config) (sys : System) (this : CBE)
    (Bytecode : string) (Args : list string) (InputFile OutputFile : string)
    (SharedLibs : list string) (Timeout : N) : Tool Z :=
  let! OutputCFile := OutputC sys this Bytecode in
  with_FileRemover OutputCFile
    (GCC.ExecuteProgram cfg sys (gcc this) OutputCFile Args GCC.CFile
       InputFile OutputFile SharedLibs Timeout).

End CBE.

Definition createCBE (sys : System) (ProgramPath : string)
    (Args : option (list string))
    : Tool (option (Path * GCC.GCC * option (list string)) * string) :=
  let! LLCPath := FindExecutable sys "llc" ProgramPath in
  if bool_decide (LLCPath = ""%string) then
    tret (None,
          ("Cannot find `llc' in executable directory or PATH!" +:+ NL)%string)
  else
    let Message := ("Found llc: " +:+ LLCPath +:+ NL)%string in
    let! created := GCC.create sys ProgramPath in
    let '(gcc, Message) := created in
    match gcc with
    | None => let! _ := cerr (Message +:+ NL) in exit 1
    | Some gcc => tret (Some (LLCPath, gcc, Args), Message)
    end.

(** *** Vocabulary of the tool runner's properties *)

(** The arguments of a command, each after a blank. *)
Definition command_line (Args : list string) : string :=
  foldr (λ Arg rest, " " +:+ Arg +:+ rest)%string ""%string Args.

(** What a failed tool leaves behind, from the history [h] at the moment
    of the failure: the file its messages are captured in, what the
    process does, and the message of the error thrown. *)
Definition error_file (sys : System) (h : list Event) : Path :=
  unique_name sys h "error_messages".

Definition failure_trace (sys : System) (ProgPath : Path)
    (Args : list string) (h : list Event) : list Event :=
  let f := error_file sys h in
  [MadeUnique "error_messages" f; Ran ProgPath Args "" f f 0; Opened f;
   Destroyed f].

Definition failure_message (sys : System) (ProgPath : Path)
    (Args : list string) (h : list Event) : string :=
  let f := error_file sys h in
  (NL +:+ "Error running tool:" +:+ NL +:+ " " +:+ command_line Args +:+ NL
   +:+ match contents sys
               (h ++ [MadeUnique "error_messages" f;
                      Ran ProgPath Args "" f f 0; Opened f]) with
       | Some text => text
       | None => ""
       end)%string.

(** A system on which every tool succeeds, and one on which every tool
    fails with status 1 and says "boom"; both find every executable under
    [/bin] and make a name unique by appending [-0]. *)
Definition good_system : System :=
  {| exit_status := λ _, 0;
     unique_name := λ _ p, (p +:+ "-0")%string;
     contents := λ _, None;
     found := λ h, match last h with
                   | Some (Looked exe _) => ("/bin/" +:+ exe)%string
                   | _ => ""%string
                   end |}.

Definition bad_system : System :=
  {| exit_status := λ _, 1;
     unique_name := λ _ p, (p +:+ "-0")%string;
     contents := λ _, Some "boom"%string;
     found := λ h, match last h with
                   | Some (Looked exe _) => ("/bin/" +:+ exe)%string
                   | _ => ""%string
                   end |}.

End Tools.

(** ** Vocabulary of the properties *)

(** The five node classes a wrapper may wrap. *)
Definition is_symbol_node (N : SDNode) : bool :=
  match N with
  | GlobalAddress _ _ _ _ _ | ConstantPool _ _ _ _ _ _
  | ExternalSymbol _ _ _ _ | JumpTable _ _ _ _ | BlockAddress _ _ _ _ => true
  | _ => false
  end.

(** Every wrapper the matcher can walk into wraps a symbol node, so that
    the final [cast<BlockAddressSDNode>] of [MatchWrapper] cannot fail. *)
Fixpoint wrappers_resolve (N : SDNode) : bool :=
  match N with
  | Wrapper _ Op0 => is_symbol_node Op0
  | ADD _ Op0 Op1 | OR _ Op0 Op1 => wrappers_resolve Op0 && wrappers_resolve Op1
  | _ => true
  end.

(** Expressions built from [ISD::Constant] leaves and [ISD::ADD] only, and
    the sum of their leaves. *)
Fixpoint const_expr (N : SDNode) : bool :=
  match N with
  | Constant _ false _ => true
  | ADD _ Op0 Op1 => const_expr Op0 && const_expr Op1
  | _ => false
  end.

Fixpoint sum_leaves (N : SDNode) : Z :=
  match N with
  | Constant _ _ Val => Val
  | ADD _ Op0 Op1 => sum_leaves Op0 + sum_leaves Op1
  | _ => 0
  end.

(** Number of nodes on the paths the matcher walks. *)
Fixpoint node_size (N : SDNode) : nat :=
  match N with
  | Wrapper _ Op0 => S (node_size Op0)
  | ADD _ Op0 Op1 | OR _ Op0 Op1 => S (node_size Op0 + node_size Op1)
  | _ => 1
  end.

(** Where the base of the mode on exit of a fold of [N] can come from: it
    is the base on entry, a frame slot, or a node no larger than [N]. *)
Definition base_comes_from (N : SDNode) (AM AM' : MAPIPISelAddressMode)
    : Prop :=
  Base AM' = Base AM
  ∨ (∃ FI, Base AM' = FrameIndexBase FI)
  ∨ (∃ R, Base AM' = RegBase (Some R) ∧ (node_size R ≤ node_size N)%nat).

(** A base is committed: a register base holding a node, or a frame slot. *)
Definition base_committed (AM : MAPIPISelAddressMode) : Prop :=
  (∃ R, Base AM = RegBase (Some R)) ∨ (∃ FI, Base AM = FrameIndexBase FI).

(** A matcher that returns from every mode: none of its assertions fails. *)
Definition always_returns {A : Type} (m : Matcher A) : Prop :=
  ∀ AM, ∃ r AM', m AM = Returns (r, AM').

(** The symbolic-kind fields of a mode that are populated. *)
Definition symbolic_kinds (AM : MAPIPISelAddressMode) : list bool :=
  [nonnull (GV AM); nonnull (CP AM); nonnull (ES AM); negb (JT AM =? -1);
   nonnull (BlockAddr AM)].

Definition populated_kinds (AM : MAPIPISelAddressMode) : nat :=
  length (filter (λ b, b = true) (symbolic_kinds AM)).

(** The same count over the four fields [hasSymbolicDisplacement] tests. *)
Definition guarded_kinds (AM : MAPIPISelAddressMode) : nat :=
  length (filter (λ b, b = true)
            [nonnull (GV AM); nonnull (CP AM); nonnull (ES AM);
             negb (JT AM =? -1)]).

Section Vocabulary.

Variable MaskedValueIsZero : SDNode → Z → bool.
Variable PointerTy : MVT.

(** One operand order of the addition rule, in the words of the design:
    fold [first] into the snapshot and, if that succeeds, fold [second]
    into the updated mode; the mode to commit if both succeed. *)
Definition try_order (first second : SDNode)
    (snapshot : MAPIPISelAddressMode) : option MAPIPISelAddressMode :=
  match MatchAddress MaskedValueIsZero first snapshot with
  | Returns (false, AM1) =>
      match MatchAddress MaskedValueIsZero second AM1 with
      | Returns (false, AM2) => Some AM2
      | _ => None
      end
  | _ => None
  end.

(** The node [N] = [Op0 | C] was folded as the addition [Op0 + C]: the mode
    on exit is the one folding [Op0] gives, with [C] added into [Disp]. *)
Definition folds_as_addition (N Op0 : SDNode) (C : Z)
    (AM : MAPIPISelAddressMode) : Prop :=
  ∃ AM1, MatchAddress MaskedValueIsZero Op0 AM = Returns (false, AM1)
         ∧ MatchAddress MaskedValueIsZero N AM
           = Returns (false, set_Disp (int16_t (Disp AM1 + C)) AM1).

(** The generic base rule applied to the mode as it was on entry: [N] is
    the register base if the base was free, and a failure otherwise. *)
Definition base_rule_outcome (N : SDNode) (AM : MAPIPISelAddressMode)
    : Outcome (bool * MAPIPISelAddressMode) :=
  if base_is_free AM then Returns (false, set_Base (RegBase (Some N)) AM)
  else Returns (true, AM).

(** The synthesizer in the words of the design: the base operand by the
    state of the base, the displacement operand as the first form present
    in precedence order. *)
Definition base_operand (VT : MVT) (AM : MAPIPISelAddressMode) : SDNode :=
  match Base AM with
  | RegBase None => Register VT 0
  | RegBase (Some R) => R
  | FrameIndexBase FI => FrameIndex PointerTy true FI
  end.

Definition displacement_forms (AM : MAPIPISelAddressMode)
    : list (option SDNode) :=
  [ (λ G, GlobalAddress i16 true G (Disp AM) 0) <$> GV AM;
    (λ C, ConstantPool i16 true C (Align AM) (Disp AM) 0) <$> CP AM;
    (λ Sym, ExternalSymbol i16 true Sym 0) <$> ES AM;
    (if bool_decide (JT AM ≠ -1) then Some (JumpTable i16 true (JT AM) 0)
     else None);
    (λ BA, BlockAddress i32 true BA 0) <$> BlockAddr AM;
    Some (Constant i16 true (Disp AM)) ].

Definition first_present (forms : list (option SDNode)) : option SDNode :=
  head (omap id forms).

End Vocabulary.

(** Graphs to try the selector on: node 1 is the frame index of slot 5,
    used by node 2 alone, or by nodes 2 and 3. *)
Definition frame_slot_5 : Graph.DAGNode :=
  Graph.mkNode (Graph.KFrameIndex false 5) [i16] [].

Definition one_consumer : Graph.SelectionDAG :=
  <[2%positive := Graph.mkNode (Graph.KOther 9) [i16] [1%positive]]>
    (<[1%positive := frame_slot_5]> ∅).

Definition two_consumers : Graph.SelectionDAG :=
  <[3%positive := Graph.mkNode (Graph.KOther 9) [i16]
                    [1%positive; 2%positive]]> one_consumer.

(** A generated matcher that selects nothing. *)
Definition no_SelectCode (N : Graph.NodeId) (dag : Graph.SelectionDAG)
    : Outcome (option Graph.NodeId * Graph.SelectionDAG) :=
  Returns (None, dag).

(** A bit analysis that proves nothing, and one that proves everything. *)
Definition nothing_known : SDNode → Z → bool := λ _ _, false.
Definition all_known : SDNode → Z → bool := λ _ _, true.

(** An add-immediate-zero machine node over the target frame reference of
    slot [FI], as found at identity [R] of a graph. *)
Definition is_frame_address_add (dag : Graph.SelectionDAG)
    (R : Graph.NodeId) (FI : Z) : Prop :=
  ∃ TFI Zero,
    dag !! R = Some (Graph.mkNode (Graph.KMachine Graph.ADD16ri) [i16]
                       [TFI; Zero])
    ∧ dag !! TFI = Some (Graph.mkNode (Graph.KFrameIndex true FI) [i16] [])
    ∧ dag !! Zero = Some (Graph.mkNode (Graph.KConstant true 0) [i16] []).

(** The nodes of an address expression the matcher can take as a base: the
    expression, and what it reaches through the operands of additions and
    the left operand of an OR. *)
Inductive walks_to : SDNode → SDNode → Prop :=
| walks_here (N : SDNode) : walks_to N N
| walks_add_0 (VT : MVT) (Op0 Op1 M : SDNode) :
    walks_to Op0 M → walks_to (ADD VT Op0 Op1) M
| walks_add_1 (VT : MVT) (Op0 Op1 M : SDNode) :
    walks_to Op1 M → walks_to (ADD VT Op0 Op1) M
| walks_or_0 (VT : MVT) (Op0 Op1 M : SDNode) :
    walks_to Op0 M → walks_to (OR VT Op0 Op1) M.

(** The base on exit of a fold of [N] is the base on entry, the slot of a
    frame index node [N] walks to, or a node [N] walks to. *)
Definition base_taken_from (N : SDNode) (AM AM' : MAPIPISelAddressMode)
    : Prop :=
  Base AM' = Base AM
  ∨ (∃ VT FI, walks_to N (FrameIndex VT false FI)
              ∧ Base AM' = FrameIndexBase FI)
  ∨ (∃ M, walks_to N M ∧ Base AM' = RegBase (Some M)).

(** The symbolic part of a mode: the five symbolic fields and the
    alignment. *)
Definition symbolic_part (AM : MAPIPISelAddressMode) :=
  (GV AM, CP AM, ES AM, JT AM, BlockAddr AM, Align AM).

(** The displacement fits the 16-bit immediate. *)
Definition Disp_in_range (AM : MAPIPISelAddressMode) : Prop :=
  - 2 ^ 15 ≤ Disp AM < 2 ^ 15.


(** * Properties *)

(** ** Wrap-around of the displacement *)

Lemma int16_t_congr (a b : Z) :
  a mod 2 ^ 16 = b mod 2 ^ 16 → int16_t a = int16_t b.
Proof.
  intros H. unfold int16_t.
  rewrite (Z.add_mod a), (Z.add_mod b), H by lia. reflexivity.
Qed.

Lemma int16_t_uint64_add (d v : Z) :
  int16_t (uint64_t (uint64_t d + uint64_t v)) = int16_t (d + v).
Proof.
  apply int16_t_congr. unfold uint64_t.
  assert (D : (2 ^ 16 | 2 ^ 64)) by (exists (2 ^ 48); reflexivity).
  rewrite Z.mod_mod_divide by exact D.
  rewrite Z.add_mod by lia.
  rewrite !Z.mod_mod_divide by exact D.
  rewrite <- Z.add_mod by lia. reflexivity.
Qed.

Lemma int16_t_int64 (z : Z) : int16_t (int64_t z) = int16_t z.
Proof.
  apply int16_t_congr. unfold int64_t.
  assert (D : (2 ^ 16 | 2 ^ 64)) by (exists (2 ^ 48); reflexivity).
  rewrite <- Zminus_mod_idemp_l, Z.mod_mod_divide, Zminus_mod_idemp_l
    by exact D.
  f_equal. lia.
Qed.

Lemma int16_t_int32 (z : Z) : int16_t (int32_t z) = int16_t z.
Proof.
  apply int16_t_congr. unfold int32_t.
  assert (D : (2 ^ 16 | 2 ^ 32)) by (exists (2 ^ 16); reflexivity).
  rewrite <- Zminus_mod_idemp_l, Z.mod_mod_divide, Zminus_mod_idemp_l
    by exact D.
  f_equal. lia.
Qed.

Lemma int16_t_add_l (a b : Z) : int16_t (int16_t a + b) = int16_t (a + b).
Proof.
  apply int16_t_congr. unfold int16_t.
  rewrite <- Zplus_mod_idemp_l, <- Zminus_mod_idemp_l, Z.mod_mod,
    Zminus_mod_idemp_l, Zplus_mod_idemp_l by lia.
  f_equal. lia.
Qed.

Lemma int16_t_range (z : Z) : - 2 ^ 15 ≤ int16_t z < 2 ^ 15.
Proof. unfold int16_t. pose proof (Z.mod_pos_bound (z + 2 ^ 15) (2 ^ 16)). lia. Qed.

(** ** Stepping through the matcher *)

(** Expose the state passing of a matcher applied to a mode. *)
Ltac expose :=
  unfold MatchWrapper, MatchAddressBase, both_match, bind, ret, getAM,
    putAM, abort in *.

(** Case on the outcome of the next nested match. *)
Ltac run :=
  match goal with
  | |- context [match MatchAddress ?q ?N ?AM with _ => _ end] =>
      let E := fresh "E" in
      destruct (MatchAddress q N AM) as [[[] ?]|] eqn:E
  end.

Section MatcherFacts.

Variable q : SDNode → Z → bool.

Lemma MatchAddressBase_outcome (N : SDNode) (AM : MAPIPISelAddressMode) :
  MatchAddressBase N AM = base_rule_outcome N AM.
Proof.
  unfold base_rule_outcome. expose. destruct (base_is_free AM); reflexivity.
Qed.

(** *** Matchers that never abort *)

Lemma ret_returns {A : Type} (a : A) : always_returns (ret a).
Proof. intros AM. unfold ret. eauto. Qed.

Lemma getAM_returns : always_returns getAM.
Proof. intros AM. unfold getAM. eauto. Qed.

Lemma putAM_returns (AM' : MAPIPISelAddressMode) : always_returns (putAM AM').
Proof. intros AM. unfold putAM. eauto. Qed.

Lemma bind_returns {A B : Type} (m : Matcher A) (f : A → Matcher B) :
  always_returns m → (∀ a, always_returns (f a)) → always_returns (bind m f).
Proof.
  intros Hm Hf AM. unfold bind.
  destruct (Hm AM) as (a & AM' & ->). apply Hf.
Qed.

Lemma both_match_returns (m1 m2 : Matcher bool) :
  always_returns m1 → always_returns m2 → always_returns (both_match m1 m2).
Proof.
  intros H1 H2. unfold both_match. apply bind_returns; [exact H1|].
  intros []; [apply ret_returns|].
  apply bind_returns; [exact H2|]. intros r. apply ret_returns.
Qed.

Lemma MatchAddressBase_returns (N : SDNode) :
  always_returns (MatchAddressBase N).
Proof.
  intros AM. rewrite MatchAddressBase_outcome. unfold base_rule_outcome.
  destruct (base_is_free AM); eauto.
Qed.

Lemma MatchWrapper_returns (VT : MVT) (Op0 : SDNode) :
  is_symbol_node Op0 = true → always_returns (MatchWrapper (Wrapper VT Op0)).
Proof.
  intros H AM. expose. destruct (hasSymbolicDisplacement AM); [eauto|].
  destruct Op0; try discriminate; simpl; eauto.
Qed.

Create HintDb returns.
#[local] Hint Resolve ret_returns getAM_returns putAM_returns
  both_match_returns MatchAddressBase_returns MatchWrapper_returns : returns.

(** On well-formed expressions no assertion of the matcher fails. *)
Lemma MatchAddress_returns (N : SDNode) :
  wrappers_resolve N = true → always_returns (MatchAddress q N).
Proof.
  induction N; intros W; simpl in W; cbn [MatchAddress];
    auto with returns.
  - destruct isTarget; auto with returns.
    repeat (apply bind_returns; intros; auto with returns).
  - destruct isTarget; auto with returns.
    apply bind_returns; [auto with returns|]. intros AM.
    destruct (base_is_free AM); auto with returns.
    apply bind_returns; auto with returns.
  - apply bind_returns; [auto with returns|].
    intros []; simpl; auto with returns.
  - apply andb_true_iff in W as [W1 W2].
    specialize (IHN1 W1). specialize (IHN2 W2).
    apply bind_returns; [auto with returns|]. intros Backup.
    apply bind_returns; [auto with returns|]. intros []; [auto with returns|].
    apply bind_returns; [auto with returns|]. intros _.
    apply bind_returns; [auto with returns|]. intros []; [auto with returns|].
    apply bind_returns; auto with returns.
  - apply andb_true_iff in W as [W1 W2]. specialize (IHN1 W1).
    destruct N2; auto with returns.
    apply bind_returns; [auto with returns|]. intros Backup. cbv zeta.
    apply bind_returns; [auto with returns|]. intros failed.
    apply bind_returns; [auto with returns|]. intros AM.
    destruct (negb failed && negb (nonnull (GV AM)) && q N1 Val).
    + apply bind_returns; auto with returns.
    + apply bind_returns; auto with returns.
Qed.

(** *** Constant expressions *)

(** Folding a constant expression into any mode succeeds and adds the sum
    of its leaves to the displacement, touching nothing else. *)
Lemma const_expr_fold (N : SDNode) :
  const_expr N = true →
  ∀ AM, MatchAddress q N AM
        = Returns (false, set_Disp (int16_t (Disp AM + sum_leaves N)) AM).
Proof.
  induction N; simpl; try discriminate.
  - destruct isTarget; [discriminate|]. intros _ AM. expose.
    rewrite int16_t_uint64_add. reflexivity.
  - intros H AM. apply andb_true_iff in H as [H1 H2]. expose.
    rewrite (IHN1 H1 AM), (IHN2 H2). simpl.
    rewrite int16_t_add_l, Z.add_assoc. reflexivity.
Qed.

(** *** The addition rule *)

Lemma ADD_rule (VT : MVT) (Op0 Op1 : SDNode) (AM : MAPIPISelAddressMode) :
  wrappers_resolve Op0 = true → wrappers_resolve Op1 = true →
  MatchAddress q (ADD VT Op0 Op1) AM =
    match try_order q Op0 Op1 AM with
    | Some AM2 => Returns (false, AM2)
    | None =>
        match try_order q Op1 Op0 AM with
        | Some AM2 => Returns (false, AM2)
        | None => MatchAddressBase (ADD VT Op0 Op1) AM
        end
    end.
Proof.
  intros W0 W1.
  pose proof (MatchAddress_returns Op0 W0) as R0.
  pose proof (MatchAddress_returns Op1 W1) as R1.
  cbn [MatchAddress]. unfold try_order, both_match, bind, getAM, putAM, ret.
  destruct (R0 AM) as ([] & A0 & ->).
  - destruct (R1 AM) as ([] & B1 & ->); [reflexivity|].
    destruct (R0 B1) as ([] & B0 & ->); reflexivity.
  - destruct (R1 A0) as ([] & A1 & ->); [|reflexivity]. simpl.
    destruct (R1 AM) as ([] & B1 & ->); [reflexivity|].
    destruct (R0 B1) as ([] & B0 & ->); reflexivity.
Qed.

(** The same rule read backwards; it needs no well-formedness, since a
    call that returned did not abort. *)
Lemma ADD_inv (VT : MVT) (Op0 Op1 : SDNode) (AM : MAPIPISelAddressMode)
    (r : bool) (AM' : MAPIPISelAddressMode) :
  MatchAddress q (ADD VT Op0 Op1) AM = Returns (r, AM') →
  (r = false ∧ try_order q Op0 Op1 AM = Some AM')
  ∨ (r = false ∧ try_order q Op1 Op0 AM = Some AM')
  ∨ MatchAddressBase (ADD VT Op0 Op1) AM = Returns (r, AM').
Proof.
  cbn [MatchAddress]. unfold try_order, both_match, bind, getAM, putAM, ret.
  repeat run; simpl; intros H; try discriminate H;
    try (injection H as <- <-);
    first [ left; split; reflexivity
          | right; left; split; reflexivity
          | right; right; assumption ].
Qed.

(** *** The OR rule *)

Lemma OR_rule (VT VTc : MVT) (t : bool) (Op0 : SDNode) (C : Z)
    (AM AM1 : MAPIPISelAddressMode) (failed : bool) :
  MatchAddress q Op0 AM = Returns (failed, AM1) →
  MatchAddress q (OR VT Op0 (Constant VTc t C)) AM =
    if negb failed && negb (nonnull (GV AM1)) && q Op0 C
    then Returns (false, set_Disp (int16_t (Disp AM1 + C)) AM1)
    else base_rule_outcome (OR VT Op0 (Constant VTc t C)) AM.
Proof.
  intros E. cbn [MatchAddress]. unfold bind at 1 2 3, getAM. rewrite E.
  destruct (negb failed && negb (nonnull (GV AM1)) && q Op0 C).
  - unfold bind, putAM, ret. rewrite int16_t_uint64_add. reflexivity.
  - unfold bind at 1, putAM. apply MatchAddressBase_outcome.
Qed.

Lemma OR_other_rule (VT : MVT) (Op0 Op1 : SDNode)
    (AM : MAPIPISelAddressMode) :
  (∀ VTc t C, Op1 ≠ Constant VTc t C) →
  MatchAddress q (OR VT Op0 Op1) AM = base_rule_outcome (OR VT Op0 Op1) AM.
Proof.
  intros H. cbn [MatchAddress].
  destruct Op1; try apply MatchAddressBase_outcome.
  exfalso. eapply H. reflexivity.
Qed.

(** *** The base *)

Lemma try_order_base_kept (X Y : SDNode) (AM AM' : MAPIPISelAddressMode) :
  (∀ AM r AM', base_is_free AM = false →
     MatchAddress q X AM = Returns (r, AM') → Base AM' = Base AM) →
  (∀ AM r AM', base_is_free AM = false →
     MatchAddress q Y AM = Returns (r, AM') → Base AM' = Base AM) →
  base_is_free AM = false →
  try_order q X Y AM = Some AM' → Base AM' = Base AM.
Proof.
  intros HX HY F. unfold try_order.
  destruct (MatchAddress q X AM) as [[[] A1]|] eqn:E1; try discriminate.
  destruct (MatchAddress q Y A1) as [[[] A3]|] eqn:E2; try discriminate.
  intros [= <-]. pose proof (HX _ _ _ F E1) as K1.
  rewrite <- K1. eapply HY; [|exact E2].
  unfold base_is_free in *. rewrite K1. exact F.
Qed.

(** A committed base survives every fold. *)
Lemma committed_base_kept (N : SDNode) :
  ∀ AM r AM', base_is_free AM = false →
    MatchAddress q N AM = Returns (r, AM') → Base AM' = Base AM.
Proof.
  assert (B : ∀ M AM r AM', base_is_free AM = false →
            MatchAddressBase M AM = Returns (r, AM') → Base AM' = Base AM).
  { intros M AM r AM' F. rewrite MatchAddressBase_outcome.
    unfold base_rule_outcome. rewrite F. congruence. }
  assert (FK : ∀ AM AM', base_is_free AM = false → Base AM' = Base AM →
            base_is_free AM' = false).
  { intros AM AM' F E. unfold base_is_free in *. rewrite E. exact F. }
  induction N; intros AM r AM' F; try (apply B; exact F).
  - destruct isTarget; [apply B; exact F|].
    simpl. expose. intros [= <- <-]. reflexivity.
  - destruct isTarget; [apply B; exact F|].
    cbn [MatchAddress]. unfold bind at 1, getAM. rewrite F.
    apply B; exact F.
  - cbn [MatchAddress]. unfold bind at 1.
    destruct (MatchWrapper (Wrapper VT N) AM) as [[[] A1]|] eqn:E;
      [| |discriminate].
    + assert (A1 = AM) as ->.
      { revert E. expose. destruct (hasSymbolicDisplacement AM);
          [congruence|].
        destruct N; simpl; congruence. }
      simpl. apply B; exact F.
    + simpl. unfold ret. intros [= <- <-].
      revert E. expose. destruct (hasSymbolicDisplacement AM);
        [congruence|].
      destruct N; simpl; try discriminate; intros [= <-]; reflexivity.
  - intros H. destruct (ADD_inv _ _ _ _ _ _ H) as [[_ T]|[[_ T]|T]].
    + exact (try_order_base_kept N1 N2 AM AM' IHN1 IHN2 F T).
    + exact (try_order_base_kept N2 N1 AM AM' IHN2 IHN1 F T).
    + exact (B _ _ _ _ F T).
  - destruct N2; try (apply B; exact F).
    destruct (MatchAddress q N1 AM) as [[f A1]|] eqn:E1.
    + rewrite (OR_rule _ _ _ _ _ _ _ _ E1).
      destruct (negb f && negb (nonnull (GV A1)) && q N1 Val).
      * intros [= <- <-]. simpl. eapply IHN1; eassumption.
      * rewrite <- MatchAddressBase_outcome. apply B; exact F.
    + cbn [MatchAddress]. unfold bind at 1 2, getAM. rewrite E1.
      discriminate.
Qed.

(** With a free base the matcher cannot fail. *)
Lemma free_base_succeeds (N : SDNode) (AM : MAPIPISelAddressMode) :
  wrappers_resolve N = true → base_is_free AM = true →
  ∃ AM', MatchAddress q N AM = Returns (false, AM').
Proof.
  intros W F.
  assert (B : ∀ M, ∃ AM', MatchAddressBase M AM = Returns (false, AM')).
  { intros M. rewrite MatchAddressBase_outcome. unfold base_rule_outcome.
    rewrite F. eauto. }
  destruct N; try apply B.
  - destruct isTarget; [apply B|]. simpl. expose. eauto.
  - destruct isTarget; [apply B|]. cbn [MatchAddress].
    unfold bind, getAM. rewrite F. expose. eauto.
  - simpl in W. cbn [MatchAddress]. unfold bind at 1.
    destruct (MatchWrapper_returns VT N W AM) as ([] & A1 & E); rewrite E;
      simpl; [|unfold ret; eauto].
    assert (A1 = AM) as ->; [|apply B].
    revert E. expose. destruct (hasSymbolicDisplacement AM); [congruence|].
    destruct N; simpl; congruence.
  - simpl in W. apply andb_true_iff in W as [W0 W1].
    rewrite (ADD_rule _ _ _ _ W0 W1).
    destruct (try_order q N1 N2 AM); [eauto|].
    destruct (try_order q N2 N1 AM); [eauto|]. apply B.
  - simpl in W. apply andb_true_iff in W as [W0 W1].
    destruct N2; try apply B.
    destruct (MatchAddress_returns N1 W0 AM) as (f & A1 & E1).
    rewrite (OR_rule _ _ _ _ _ _ _ _ E1).
    destruct (negb f && negb (nonnull (GV A1)) && q N1 Val); [eauto|].
    rewrite <- MatchAddressBase_outcome. apply B.
Qed.

Lemma MatchWrapper_base (N : SDNode) (AM AM' : MAPIPISelAddressMode)
    (r : bool) :
  MatchWrapper N AM = Returns (r, AM') →
  Base AM' = Base AM ∧ (r = true → AM' = AM).
Proof.
  expose. destruct (hasSymbolicDisplacement AM); [intros [= <- <-]; auto|].
  destruct (getOperand N 0) as [[]|]; simpl; try discriminate;
    intros [= <- <-]; split; try reflexivity; discriminate.
Qed.

(** *** Invariants of the mode *)

(** A property of the mode that survives writes to the base and to the
    displacement, and survives [MatchWrapper], survives every fold. *)
Lemma MatchAddress_invariant (P : MAPIPISelAddressMode → Prop) :
  (∀ AM b, P AM → P (set_Base b AM)) →
  (∀ AM d, P AM → P (set_Disp d AM)) →
  (∀ N AM r AM', P AM → MatchWrapper N AM = Returns (r, AM') → P AM') →
  ∀ N AM r AM', P AM → MatchAddress q N AM = Returns (r, AM') → P AM'.
Proof.
  intros PB PD PW.
  assert (B : ∀ M AM r AM', P AM →
            MatchAddressBase M AM = Returns (r, AM') → P AM').
  { intros M AM r AM' H. rewrite MatchAddressBase_outcome.
    unfold base_rule_outcome.
    destruct (base_is_free AM); intros [= <- <-]; auto. }
  assert (T : ∀ X Y,
            (∀ AM r AM', P AM → MatchAddress q X AM = Returns (r, AM') →
                         P AM') →
            (∀ AM r AM', P AM → MatchAddress q Y AM = Returns (r, AM') →
                         P AM') →
            ∀ AM AM', P AM → try_order q X Y AM = Some AM' → P AM').
  { intros X Y HX HY AM AM' H. unfold try_order.
    destruct (MatchAddress q X AM) as [[[] A1]|] eqn:E1; try discriminate.
    destruct (MatchAddress q Y A1) as [[[] A2]|] eqn:E2; try discriminate.
    intros [= <-]. eapply HY; [|exact E2]. eapply HX; [|exact E1]. exact H. }
  induction N; intros AM r AM' H; try (apply B; exact H).
  - destruct isTarget; [apply B; exact H|]. simpl. expose.
    intros [= <- <-]. auto.
  - destruct isTarget; [apply B; exact H|]. cbn [MatchAddress].
    unfold bind, getAM. destruct (base_is_free AM); [|apply B; exact H].
    unfold putAM, ret. intros [= <- <-]. auto.
  - cbn [MatchAddress]. unfold bind at 1.
    destruct (MatchWrapper (Wrapper VT N) AM) as [[[] A1]|] eqn:E;
      [| |discriminate]; simpl; pose proof (PW _ _ _ _ H E) as H1.
    + apply B; exact H1.
    + unfold ret. intros [= <- <-]. exact H1.
  - intros E. destruct (ADD_inv _ _ _ _ _ _ E) as [[_ K]|[[_ K]|K]].
    + exact (T N1 N2 IHN1 IHN2 AM AM' H K).
    + exact (T N2 N1 IHN2 IHN1 AM AM' H K).
    + exact (B _ _ _ _ H K).
  - destruct N2; try (apply B; exact H).
    destruct (MatchAddress q N1 AM) as [[f A1]|] eqn:E1.
    + rewrite (OR_rule _ _ _ _ _ _ _ _ E1).
      destruct (negb f && negb (nonnull (GV A1)) && q N1 Val).
      * intros [= <- <-]. apply PD. eapply IHN1; eassumption.
      * rewrite <- MatchAddressBase_outcome. apply B; exact H.
    + cbn [MatchAddress]. unfold bind at 1 2, getAM. rewrite E1.
      discriminate.
Qed.

(** The four kinds the guard of [MatchWrapper] tests exclude each other
    through every fold; the code label is the one kind that escapes. *)
Lemma guarded_kinds_exclusive (N : SDNode) (AM AM' : MAPIPISelAddressMode)
    (r : bool) :
  (guarded_kinds AM ≤ 1)%nat →
  MatchAddress q N AM = Returns (r, AM') → (guarded_kinds AM' ≤ 1)%nat.
Proof.
  apply (MatchAddress_invariant (λ AM, (guarded_kinds AM ≤ 1)%nat));
    clear; try (intros; assumption).
  intros N AM r AM' H. expose.
  destruct (hasSymbolicDisplacement AM) eqn:S; [intros [= <- <-]; exact H|].
  unfold hasSymbolicDisplacement in S.
  apply orb_false_iff in S as [S SJ]. apply orb_false_iff in S as [S SE].
  apply orb_false_iff in S as [SG SC].
  destruct (getOperand N 0) as [[]|]; simpl; try discriminate;
    intros [= <- <-]; unfold guarded_kinds; simpl;
    rewrite ?SG, ?SC, ?SE, ?SJ; simpl;
    try destruct (negb (JTI =? -1)); simpl; lia.
Qed.

(** What [MatchWrapper] does with a wrapped global on a mode without a
    symbol: the global is recorded and its offset added, with wrap-around. *)
Lemma MatchWrapper_global (VT VT' : MVT) (t : bool) (G : GlobalValue)
    (Offset Flags : Z) (AM : MAPIPISelAddressMode) :
  hasSymbolicDisplacement AM = false →
  MatchWrapper (Wrapper VT (GlobalAddress VT' t G Offset Flags)) AM
  = Returns (false,
             set_Disp (int16_t (Disp AM + Offset)) (set_GV (Some G) AM)).
Proof.
  intros H. expose. rewrite H. simpl. rewrite int16_t_int64. reflexivity.
Qed.

(** The same for a wrapped constant-pool entry, whose alignment is kept. *)
Lemma MatchWrapper_constant_pool (VT VT' : MVT) (t : bool) (C : ConstantRef)
    (Alignment Offset Flags : Z) (AM : MAPIPISelAddressMode) :
  hasSymbolicDisplacement AM = false →
  MatchWrapper (Wrapper VT (ConstantPool VT' t C Alignment Offset Flags)) AM
  = Returns (false,
             set_Disp (int16_t (Disp AM + Offset))
               (set_Align Alignment (set_CP (Some C) AM))).
Proof.
  intros H. expose. rewrite H. simpl. rewrite int16_t_int32. reflexivity.
Qed.

(** Even where an assertion could fail: a call that returns from a free
    base returns success. *)
Lemma free_base_never_fails (N : SDNode) (AM AM' : MAPIPISelAddressMode)
    (r : bool) :
  base_is_free AM = true →
  MatchAddress q N AM = Returns (r, AM') → r = false.
Proof.
  intros F.
  assert (B : ∀ M, MatchAddressBase M AM = Returns (r, AM') → r = false).
  { intros M. rewrite MatchAddressBase_outcome. unfold base_rule_outcome.
    rewrite F. congruence. }
  destruct N; try apply B.
  - destruct isTarget; [apply B|]. simpl. expose. congruence.
  - destruct isTarget; [apply B|]. cbn [MatchAddress].
    unfold bind, getAM. rewrite F. expose. congruence.
  - cbn [MatchAddress]. unfold bind at 1.
    destruct (MatchWrapper (Wrapper VT N) AM) as [[[] A1]|] eqn:E;
      [| |discriminate]; simpl.
    + destruct (MatchWrapper_base _ _ _ _ E) as [_ K].
      rewrite (K eq_refl). apply B.
    + unfold ret. congruence.
  - intros H. destruct (ADD_inv _ _ _ _ _ _ H) as [[-> _]|[[-> _]|T]];
      [reflexivity | reflexivity | exact (B _ T)].
  - destruct N2; try apply B.
    destruct (MatchAddress q N1 AM) as [[f A1]|] eqn:E1.
    + rewrite (OR_rule _ _ _ _ _ _ _ _ E1).
      destruct (negb f && negb (nonnull (GV A1)) && q N1 Val);
        [congruence|].
      rewrite <- MatchAddressBase_outcome. apply B.
    + cbn [MatchAddress]. unfold bind at 1 2, getAM. rewrite E1.
      discriminate.
Qed.

Lemma base_comes_from_trans (X N : SDNode)
    (AM A1 AM' : MAPIPISelAddressMode) (Y : SDNode) :
  (node_size X ≤ node_size N)%nat → (node_size Y ≤ node_size N)%nat →
  base_comes_from X AM A1 → base_comes_from Y A1 AM' →
  base_comes_from N AM AM'.
Proof.
  unfold base_comes_from.
  intros SX SY [E1|[[FI E1]|(R & E1 & S1)]] [E2|[[FI' E2]|(R' & E2 & S2)]];
    try rewrite E2; try rewrite E1; eauto with lia.
Qed.

Lemma base_provenance (N : SDNode) :
  ∀ AM r AM', MatchAddress q N AM = Returns (r, AM') →
    base_comes_from N AM AM'.
Proof.
  assert (B : ∀ M AM r AM', MatchAddressBase M AM = Returns (r, AM') →
            base_comes_from M AM AM').
  { intros M AM r AM'. rewrite MatchAddressBase_outcome.
    unfold base_rule_outcome, base_comes_from.
    destruct (base_is_free AM); intros [= <- <-]; [|auto].
    right. right. exists M. split; [reflexivity|lia]. }
  induction N; intros AM r AM'; try apply B.
  - destruct isTarget; [apply B|]. simpl. expose. intros [= <- <-].
    left. reflexivity.
  - destruct isTarget; [apply B|]. cbn [MatchAddress]. unfold bind, getAM.
    destruct (base_is_free AM); [|apply B].
    unfold putAM, ret. intros [= <- <-]. right. left. eexists. reflexivity.
  - cbn [MatchAddress]. unfold bind at 1.
    destruct (MatchWrapper (Wrapper VT N) AM) as [[[] A1]|] eqn:E;
      [| |discriminate]; simpl;
      destruct (MatchWrapper_base _ _ _ _ E) as [K1 K2].
    + rewrite (K2 eq_refl). apply B.
    + unfold ret. intros [= <- <-]. left. exact K1.
  - intros H. destruct (ADD_inv _ _ _ _ _ _ H) as [[_ T]|[[_ T]|T]];
      [| |exact (B _ _ _ _ T)]; revert T; unfold try_order.
    + destruct (MatchAddress q N1 AM) as [[[] A1]|] eqn:E1; try discriminate.
      destruct (MatchAddress q N2 A1) as [[[] A2]|] eqn:E2; try discriminate.
      intros [= <-].
      apply (base_comes_from_trans N1 _ AM A1 A2 N2); simpl; eauto with lia.
    + destruct (MatchAddress q N2 AM) as [[[] A1]|] eqn:E1; try discriminate.
      destruct (MatchAddress q N1 A1) as [[[] A2]|] eqn:E2; try discriminate.
      intros [= <-].
      apply (base_comes_from_trans N2 _ AM A1 A2 N1); simpl; eauto with lia.
  - destruct N2; try apply B.
    destruct (MatchAddress q N1 AM) as [[f A1]|] eqn:E1.
    + rewrite (OR_rule _ _ _ _ _ _ _ _ E1).
      destruct (negb f && negb (nonnull (GV A1)) && q N1 Val).
      * intros [= <- <-].
        apply (base_comes_from_trans N1 _ AM A1 _ N1); simpl;
          eauto with lia.
        left. reflexivity.
      * rewrite <- MatchAddressBase_outcome. apply B.
    + cbn [MatchAddress]. unfold bind at 1 2, getAM. rewrite E1.
      discriminate.
Qed.

End MatcherFacts.

Lemma base_committed_not_free (AM : MAPIPISelAddressMode) :
  base_committed AM ↔ base_is_free AM = false.
Proof.
  unfold base_committed, base_is_free. destruct (Base AM) as [[R|]|FI].
  - split; eauto.
  - split; [intros [[R E]|[FI E]]; discriminate | discriminate].
  - split; eauto.
Qed.

(** ** The scenarios of the design *)

(** A: a frame slot plus a constant. *)
Example scenario_frame_slot_plus_constant :
  MatchAddress nothing_known
    (ADD i16 (FrameIndex i16 false 5) (Constant i16 false 8)) AM_init
  = Returns (false, set_Disp 8 (set_Base (FrameIndexBase 5) AM_init)).
Proof. reflexivity. Qed.

(** B: a wrapped global with addend 4 plus a constant. *)
Example scenario_global_plus_constant :
  MatchAddress nothing_known
    (ADD i16 (Wrapper i16 (GlobalAddress i16 true "G" 4 0))
       (Constant i16 false 2)) AM_init
  = Returns (false, set_Disp 6 (set_GV (Some "G"%string) AM_init)).
Proof. reflexivity. Qed.

(** C: an OR whose low bits are not known to be zero is the base. *)
Example scenario_or_not_disjoint :
  MatchAddress nothing_known
    (OR i16 (OtherNode i16 7 []) (Constant i16 false 3)) AM_init
  = Returns (false,
             set_Base (RegBase (Some (OR i16 (OtherNode i16 7 [])
                                        (Constant i16 false 3)))) AM_init).
Proof. reflexivity. Qed.

(** ** The claims *)

(** C1, at the expression [Wrapper(BlockAddress 1) + Wrapper(GlobalAddress
    "G")]: the code populates two symbolic kinds.  After the first wrapper
    only [BlockAddr] is set, which [hasSymbolicDisplacement] does not look
    at, so the second wrapper is resolved as well; [SelectAddr] then emits
    the global and drops the code label. *)
Theorem two_symbolic_kinds_populated (q : SDNode → Z → bool) :
  let N := ADD i16 (Wrapper i16 (BlockAddress i16 true 1%positive 0))
                   (Wrapper i16 (GlobalAddress i16 true "G" 0 0)) in
  let AM := mkAM (RegBase None) 0 (Some "G"%string) None (Some 1%positive)
              None (-1) 0 in
  MatchAddress q N AM_init = Returns (false, AM)
  ∧ populated_kinds AM = 2%nat
  ∧ hasSymbolicDisplacement
      (set_BlockAddr (Some 1%positive) AM_init) = false
  ∧ SelectAddr q i16 N
    = Returns (Some (Some (Register i16 0),
                     Some (GlobalAddress i16 true "G" 0 0))).
Proof. repeat split. Qed.

(** C2, as stated, fails twice.  With a bit analysis that proves the left
    operand disjoint from the constant, [Wrapper(GlobalAddress "G") | 4] is
    still not folded as an addition (the fold of the left operand picked a
    global); and with a bit analysis that proves nothing and a frame slot
    already committed, [X | 3] does not become the base: the match fails. *)
Lemma or_fold_counterexample :
  let G := Wrapper i16 (GlobalAddress i16 true "G" 0 0) in
  let N := OR i16 G (Constant i16 false 4) in
  let X := OtherNode i16 7 [] in
  let M := OR i16 X (Constant i16 false 3) in
  let AM5 := set_Base (FrameIndexBase 5) AM_init in
  (all_known G 4 = true
   ∧ ¬ folds_as_addition all_known N G 4 AM_init
   ∧ MatchAddress all_known N AM_init
     = Returns (false, set_Base (RegBase (Some N)) AM_init))
  ∧ (nothing_known X 3 = false
     ∧ MatchAddress nothing_known M AM5 = Returns (true, AM5)
     ∧ Base AM5 ≠ RegBase (Some M)).
Proof.
  cbv zeta. repeat split; try discriminate.
  intros (AM1 & E1 & E2). vm_compute in E1. injection E1 as <-.
  vm_compute in E2. discriminate E2.
Qed.

(** C2, amended: an OR whose right operand is the integer constant [C] is
    folded as an addition exactly when folding the left operand succeeds,
    the mode has no global symbol after it, and the bit analysis proves the
    left operand disjoint from [C]; otherwise the mode is rolled back to
    what it was on entry and the generic base rule runs on it, so that the
    OR node becomes the register base if the base was free and the match
    fails with the mode unchanged if it was not. *)
Theorem or_constant_rule (q : SDNode → Z → bool) (VT VTc : MVT) (t : bool)
    (Op0 : SDNode) (C : Z) (AM AM1 : MAPIPISelAddressMode) (failed : bool) :
  MatchAddress q Op0 AM = Returns (failed, AM1) →
  let N := OR VT Op0 (Constant VTc t C) in
  let proved := negb failed && negb (nonnull (GV AM1)) && q Op0 C in
  (folds_as_addition q N Op0 C AM ↔ proved = true)
  ∧ (proved = false →
     MatchAddress q N AM =
       if base_is_free AM
       then Returns (false, set_Base (RegBase (Some N)) AM)
       else Returns (true, AM)).
Proof.
  intros E N proved.
  pose proof (OR_rule q VT VTc t Op0 C AM AM1 failed E) as R.
  fold N proved in R. unfold base_rule_outcome in R.
  split; [split|].
  - intros (A & EA & EN). destruct proved; [reflexivity|exfalso].
    rewrite E in EA. injection EA as -> <-.
    rewrite R in EN. destruct (base_is_free AM) eqn:F; [|discriminate].
    injection EN as EN.
    assert (K : Base AM1 = RegBase (Some N)) by (rewrite <- EN; reflexivity).
    destruct (base_provenance q Op0 AM _ _ E) as [P|[[FI P]|(S & P & L)]];
      rewrite K in P.
    + unfold base_is_free in F. rewrite <- P in F. discriminate.
    + discriminate.
    + injection P as <-. subst N. simpl in L. lia.
  - intros P. rewrite P in R. unfold folds_as_addition.
    exists AM1. destruct failed; [discriminate|]. auto.
  - intros P. rewrite P in R. exact R.
Qed.

Lemma or_constant_rule_witness :
  let X := OtherNode i16 7 [] in
  let N := OR i16 X (Constant i16 false 3) in
  (folds_as_addition all_known N X 3 AM_init ↔ true = true)
  ∧ MatchAddress nothing_known N AM_init
    = Returns (false, set_Base (RegBase (Some N)) AM_init).
Proof.
  cbv zeta. split.
  - apply (or_constant_rule all_known i16 i16 false (OtherNode i16 7 []) 3
             AM_init (set_Base (RegBase (Some (OtherNode i16 7 []))) AM_init)
             false eq_refl).
  - apply (or_constant_rule nothing_known i16 i16 false (OtherNode i16 7 [])
             3 AM_init
             (set_Base (RegBase (Some (OtherNode i16 7 []))) AM_init)
             false eq_refl).
    reflexivity.
Defined.

(** C3, as stated, fails where a base is already committed.  Folding
    [FrameIndex 5] into the fresh mode commits the frame slot; on that mode
    no operand order of [X + Y] folds, and the addition is not committed as
    the base: the match fails and the frame slot stays.  (This is the call
    on the right operand of [FrameIndex 5 + (X + Y)].) *)
Lemma addition_not_committed_counterexample :
  let X := OtherNode i16 7 [] in
  let Y := OtherNode i16 8 [] in
  let N := ADD i16 X Y in
  let AM5 := set_Base (FrameIndexBase 5) AM_init in
  MatchAddress nothing_known (FrameIndex i16 false 5) AM_init
  = Returns (false, AM5)
  ∧ try_order nothing_known X Y AM5 = None
  ∧ try_order nothing_known Y X AM5 = None
  ∧ MatchAddress nothing_known N AM5 = Returns (true, AM5)
  ∧ Base AM5 ≠ RegBase (Some N).
Proof.
  cbv zeta.
  refine (conj eq_refl (conj eq_refl (conj eq_refl (conj eq_refl _)))).
  discriminate.
Qed.

(** C3, amended: on an addition the matcher snapshots the mode and tries
    operand 0 then operand 1; failing that, it tries operand 1 then operand
    0 from the snapshot; failing both, the mode is the snapshot again and
    the generic base rule runs on the whole addition node: the node is
    committed as the register base if the base was free on entry, and the
    match fails with the mode as on entry if a base was committed. *)
Theorem addition_tries_both_orders (q : SDNode → Z → bool) (VT : MVT)
    (Op0 Op1 : SDNode) (AM : MAPIPISelAddressMode) :
  wrappers_resolve Op0 = true → wrappers_resolve Op1 = true →
  MatchAddress q (ADD VT Op0 Op1) AM =
    match try_order q Op0 Op1 AM with
    | Some AM2 => Returns (false, AM2)
    | None =>
        match try_order q Op1 Op0 AM with
        | Some AM2 => Returns (false, AM2)
        | None =>
            if base_is_free AM
            then Returns (false, set_Base (RegBase (Some (ADD VT Op0 Op1))) AM)
            else Returns (true, AM)
        end
    end.
Proof.
  intros W0 W1. rewrite (ADD_rule q VT Op0 Op1 AM W0 W1).
  destruct (try_order q Op0 Op1 AM); [reflexivity|].
  destruct (try_order q Op1 Op0 AM); [reflexivity|].
  apply MatchAddressBase_outcome.
Qed.

(** The outcomes of the rule: the first order folds ([FrameIndex 5 + 8]);
    only the second order folds ([(G1 + X) + G2]: after the left operand the
    base is taken and the second global has nowhere to go, while after [G2]
    the whole left operand becomes the base); no order folds and the base
    is free ([X + FrameIndex 5]), so the addition itself is the base; no
    order folds and a frame slot is committed ([X + Y] after [FrameIndex
    5]), so the match fails and the mode is as on entry. *)
Lemma addition_tries_both_orders_witness :
  let X := OtherNode i16 7 [] in
  let Y := OtherNode i16 8 [] in
  let G1 := Wrapper i16 (GlobalAddress i16 true "G1" 0 0) in
  let G2 := Wrapper i16 (GlobalAddress i16 true "G2" 0 0) in
  let F5 := FrameIndex i16 false 5 in
  let AM5 := set_Base (FrameIndexBase 5) AM_init in
  MatchAddress nothing_known (ADD i16 F5 (Constant i16 false 8)) AM_init
  = Returns (false, set_Disp 8 (set_Base (FrameIndexBase 5) AM_init))
  ∧ (try_order nothing_known (ADD i16 G1 X) G2 AM_init = None
     ∧ MatchAddress nothing_known (ADD i16 (ADD i16 G1 X) G2) AM_init
       = Returns (false, set_Base (RegBase (Some (ADD i16 G1 X)))
                           (set_GV (Some "G2"%string) AM_init)))
  ∧ (try_order nothing_known X F5 AM_init = None
     ∧ try_order nothing_known F5 X AM_init = None
     ∧ MatchAddress nothing_known (ADD i16 X F5) AM_init
       = Returns (false, set_Base (RegBase (Some (ADD i16 X F5))) AM_init))
  ∧ (try_order nothing_known X Y AM5 = None
     ∧ try_order nothing_known Y X AM5 = None
     ∧ MatchAddress nothing_known (ADD i16 X Y) AM5 = Returns (true, AM5)).
Proof.
  cbv zeta.
  refine (conj _ (conj (conj eq_refl _)
            (conj (conj eq_refl (conj eq_refl _))
               (conj eq_refl (conj eq_refl _))))).
  - rewrite (addition_tries_both_orders nothing_known i16
               (FrameIndex i16 false 5) (Constant i16 false 8) AM_init
               eq_refl eq_refl).
    reflexivity.
  - rewrite (addition_tries_both_orders nothing_known i16
               (ADD i16 (Wrapper i16 (GlobalAddress i16 true "G1" 0 0))
                  (OtherNode i16 7 []))
               (Wrapper i16 (GlobalAddress i16 true "G2" 0 0)) AM_init
               eq_refl eq_refl).
    reflexivity.
  - rewrite (addition_tries_both_orders nothing_known i16
               (OtherNode i16 7 []) (FrameIndex i16 false 5) AM_init
               eq_refl eq_refl).
    reflexivity.
  - rewrite (addition_tries_both_orders nothing_known i16
               (OtherNode i16 7 []) (OtherNode i16 8 [])
               (set_Base (FrameIndexBase 5) AM_init) eq_refl eq_refl).
    reflexivity.
Defined.

(** C4: the base finalizer fails exactly when a base is committed and
    otherwise commits the node as the register base; the frame-slot rule
    commits the slot only when no base is set; and a committed base is the
    base after any fold, whether the fold succeeds or fails. *)
Theorem committed_base_never_overwritten (q : SDNode → Z → bool)
    (N : SDNode) (AM : MAPIPISelAddressMode) :
  (base_committed AM → MatchAddressBase N AM = Returns (true, AM))
  ∧ (¬ base_committed AM →
     MatchAddressBase N AM
     = Returns (false, set_Base (RegBase (Some N)) AM))
  ∧ (∀ VT FI,
       (base_committed AM →
        MatchAddress q (FrameIndex VT false FI) AM = Returns (true, AM))
       ∧ (¬ base_committed AM →
          MatchAddress q (FrameIndex VT false FI) AM
          = Returns (false, set_Base (FrameIndexBase FI) AM)))
  ∧ (base_committed AM →
     (∀ r AM', MatchAddress q N AM = Returns (r, AM') → Base AM' = Base AM)
     ∧ (wrappers_resolve N = true →
        ∃ r AM', MatchAddress q N AM = Returns (r, AM')
                 ∧ Base AM' = Base AM)).
Proof.
  assert (CF : base_committed AM → base_is_free AM = false)
    by apply base_committed_not_free.
  assert (NF : ¬ base_committed AM → base_is_free AM = true).
  { intros H. destruct (base_is_free AM) eqn:F; [reflexivity|].
    exfalso. apply H, base_committed_not_free, F. }
  refine (conj _ (conj _ (conj _ _))).
  - intros F%CF. rewrite MatchAddressBase_outcome. unfold base_rule_outcome.
    rewrite F. reflexivity.
  - intros F%NF. rewrite MatchAddressBase_outcome. unfold base_rule_outcome.
    rewrite F. reflexivity.
  - intros VT FI. split.
    + intros F%CF. cbn [MatchAddress]. unfold bind, getAM. rewrite F.
      rewrite MatchAddressBase_outcome. unfold base_rule_outcome.
      rewrite F. reflexivity.
    + intros F%NF. cbn [MatchAddress]. unfold bind, getAM. rewrite F.
      reflexivity.
  - intros F%CF. split.
    + intros r AM'. exact (committed_base_kept q N AM r AM' F).
    + intros W. destruct (MatchAddress_returns q N W AM) as (r & AM' & E).
      exists r, AM'. split; [exact E|].
      exact (committed_base_kept q N AM r AM' F E).
Qed.

Lemma committed_base_never_overwritten_witness :
  let X := OtherNode i16 7 [] in
  let AM5 := set_Base (FrameIndexBase 5) AM_init in
  MatchAddressBase X AM5 = Returns (true, AM5)
  ∧ MatchAddressBase X AM_init
    = Returns (false, set_Base (RegBase (Some X)) AM_init)
  ∧ MatchAddress nothing_known (FrameIndex i16 false 9) AM5
    = Returns (true, AM5)
  ∧ MatchAddress nothing_known (FrameIndex i16 false 9) AM_init
    = Returns (false, set_Base (FrameIndexBase 9) AM_init)
  ∧ ∃ r AM', MatchAddress nothing_known (ADD i16 X (Constant i16 false 8)) AM5
             = Returns (r, AM')
             ∧ Base AM' = Base AM5.
Proof.
  cbv zeta.
  assert (C5 : base_committed (set_Base (FrameIndexBase 5) AM_init)).
  { right. exists 5. reflexivity. }
  assert (C0 : ¬ base_committed AM_init).
  { intros [[R E]|[FI E]]; discriminate. }
  refine (conj _ (conj _ (conj _ (conj _ _)))).
  - apply (committed_base_never_overwritten nothing_known (OtherNode i16 7 [])
             (set_Base (FrameIndexBase 5) AM_init)), C5.
  - apply (committed_base_never_overwritten nothing_known (OtherNode i16 7 [])
             AM_init), C0.
  - apply (committed_base_never_overwritten nothing_known (OtherNode i16 7 [])
             (set_Base (FrameIndexBase 5) AM_init)), C5.
  - apply (committed_base_never_overwritten nothing_known (OtherNode i16 7 [])
             AM_init), C0.
  - apply (committed_base_never_overwritten nothing_known
             (ADD i16 (OtherNode i16 7 []) (Constant i16 false 8))
             (set_Base (FrameIndexBase 5) AM_init)); [exact C5|reflexivity].
Defined.

(** C5: an expression of integer-constant leaves and additions, matched
    into a fresh address mode, succeeds; the displacement is the sum of the
    leaves wrapped to the signed 16-bit immediate, the base stays empty and
    no symbolic field is set (the mode is the fresh one but for [Disp]). *)
Theorem constants_fold_to_displacement (q : SDNode → Z → bool)
    (N : SDNode) :
  const_expr N = true →
  ∃ AM, MatchAddress q N AM_init = Returns (false, AM)
        ∧ Disp AM = int16_t (sum_leaves N)
        ∧ - 2 ^ 15 ≤ Disp AM < 2 ^ 15
        ∧ Base AM = RegBase None
        ∧ populated_kinds AM = 0%nat
        ∧ AM = set_Disp (int16_t (sum_leaves N)) AM_init.
Proof.
  intros H. eexists. split; [apply (const_expr_fold q N H)|].
  split; [reflexivity|]. split; [apply int16_t_range|].
  split; [reflexivity|]. split; reflexivity.
Qed.

(** [32767 + (1 + 2)] wraps around to [-32766]. *)
Lemma constants_fold_to_displacement_witness :
  let N := ADD i16 (Constant i16 false 32767)
             (ADD i16 (Constant i16 false 1) (Constant i16 false 2)) in
  const_expr N = true
  ∧ int16_t (sum_leaves N) = -32766
  ∧ ∃ AM, MatchAddress nothing_known N AM_init = Returns (false, AM)
          ∧ Disp AM = int16_t (sum_leaves N)
          ∧ - 2 ^ 15 ≤ Disp AM < 2 ^ 15
          ∧ Base AM = RegBase None
          ∧ populated_kinds AM = 0%nat
          ∧ AM = set_Disp (int16_t (sum_leaves N)) AM_init.
Proof.
  cbv zeta. refine (conj eq_refl (conj eq_refl _)).
  exact (constants_fold_to_displacement nothing_known
           (ADD i16 (Constant i16 false 32767)
              (ADD i16 (Constant i16 false 1) (Constant i16 false 2)))
           eq_refl).
Defined.

(** C6: from any mode the synthesizer produces, as base, the zero register
    when the register base is unset, the base node when it is set and the
    target frame index at pointer width for a frame slot; and as
    displacement the first form present in the order global, constant
    pool, external symbol, jump table, code label, plain displacement;
    there always is one.  [SelectAddr] returns exactly these two operands
    for the mode the matcher leaves. *)
Theorem synthesized_operands (q : SDNode → Z → bool) (PointerTy VT : MVT)
    (AM : MAPIPISelAddressMode) (N : SDNode) :
  SelectAddr_operands PointerTy VT AM
  = (Some (base_operand PointerTy VT AM),
     first_present (displacement_forms AM))
  ∧ (∃ D, first_present (displacement_forms AM) = Some D
          ∧ Some D ∈ displacement_forms AM)
  ∧ SelectAddr q PointerTy N
    = match MatchAddress q N AM_init with
      | Returns (false, AM') =>
          Returns (Some (Some (base_operand PointerTy (getValueType N) AM'),
                         first_present (displacement_forms AM')))
      | Returns (true, _) => Returns None
      | Aborts => Aborts
      end.
Proof.
  assert (S : ∀ VT AM, SelectAddr_operands PointerTy VT AM
              = (Some (base_operand PointerTy VT AM),
                 first_present (displacement_forms AM))).
  { clear. intros VT [[[R|]|FI] d g c ba e j a];
      unfold SelectAddr_operands, base_operand, first_present,
        displacement_forms; simpl;
      (destruct (Z.eqb_spec j (-1)) as [E|E];
       [ rewrite bool_decide_eq_false_2 by (intros K; exact (K E))
       | rewrite bool_decide_eq_true_2 by exact E ]);
      destruct g, c, e, ba; reflexivity. }
  refine (conj (S VT AM) (conj _ _)).
  - unfold first_present, displacement_forms.
    destruct (GV AM), (CP AM), (ES AM), (bool_decide (JT AM ≠ -1)),
      (BlockAddr AM); simpl; eexists; (split; [reflexivity|]);
      repeat first [apply list_elem_of_here | apply list_elem_of_further].
  - unfold SelectAddr.
    destruct (MatchAddress q N AM_init) as [[[] AM']|]; try reflexivity.
    rewrite S. reflexivity.
Qed.

(** C7: on a mode whose base is free the matcher never reports failure,
    whatever the node, and on a well-formed node it returns, so it reports
    success; [SelectAddr], which starts from the fresh mode, therefore
    always writes its two operands, and the adapter for constraint 'm'
    never takes its failure branch. *)
Theorem free_base_always_matches (q : SDNode → Z → bool) (PointerTy : MVT)
    (N : SDNode) :
  (∀ AM r AM', base_is_free AM = true →
     MatchAddress q N AM = Returns (r, AM') → r = false)
  ∧ (wrappers_resolve N = true →
     (∀ AM, base_is_free AM = true →
        ∃ AM', MatchAddress q N AM = Returns (false, AM'))
     ∧ (∃ B D, SelectAddr q PointerTy N = Returns (Some (B, D))
               ∧ ∀ OutOps,
                   SelectInlineAsmMemoryOperand q PointerTy N "m" OutOps
                   = Returns (false, OutOps ++ [B; D]))).
Proof.
  split; [intros AM r AM'; apply free_base_never_fails|].
  intros W. split.
  - intros AM F. exact (free_base_succeeds q N AM W F).
  - destruct (free_base_succeeds q N AM_init W eq_refl) as (AM' & E).
    destruct (SelectAddr_operands PointerTy (getValueType N) AM')
      as [B D] eqn:O.
    assert (S : SelectAddr q PointerTy N = Returns (Some (B, D))).
    { unfold SelectAddr. rewrite E, O. reflexivity. }
    exists B, D. split; [exact S|].
    intros OutOps. unfold SelectInlineAsmMemoryOperand. rewrite S.
    reflexivity.
Qed.

Lemma free_base_always_matches_witness :
  let N := ADD i16 (OtherNode i16 7 []) (FrameIndex i16 false 5) in
  (∀ AM, base_is_free AM = true →
     ∃ AM', MatchAddress all_known N AM = Returns (false, AM'))
  ∧ (∃ B D, SelectAddr all_known i16 N = Returns (Some (B, D))
            ∧ ∀ OutOps,
                SelectInlineAsmMemoryOperand all_known i16 N "m" OutOps
                = Returns (false, OutOps ++ [B; D])).
Proof.
  exact (proj2 (free_base_always_matches all_known i16
                  (ADD i16 (OtherNode i16 7 []) (FrameIndex i16 false 5)))
           eq_refl).
Defined.

(** C8: for a constraint code other than 'm' the adapter fails at once,
    whatever the operand, and leaves the output list alone; for 'm' it
    fails when [SelectAddr] fails and otherwise appends the two operands
    [SelectAddr] wrote, base first. *)
Theorem inline_asm_only_memory_constraint (q : SDNode → Z → bool)
    (PointerTy : MVT) (Op : SDNode) (ConstraintCode : ascii)
    (OutOps : list SDValue) :
  (ConstraintCode ≠ "m"%char →
   SelectInlineAsmMemoryOperand q PointerTy Op ConstraintCode OutOps
   = Returns (true, OutOps))
  ∧ SelectInlineAsmMemoryOperand q PointerTy Op "m" OutOps
    = match SelectAddr q PointerTy Op with
      | Returns (Some (B, D)) => Returns (false, OutOps ++ [B; D])
      | Returns None => Returns (true, OutOps)
      | Aborts => Aborts
      end.
Proof.
  split.
  - intros H. unfold SelectInlineAsmMemoryOperand.
    destruct (Ascii.eqb_spec ConstraintCode "m") as [E|E];
      [contradiction|reflexivity].
  - unfold SelectInlineAsmMemoryOperand. simpl.
    destruct (SelectAddr q PointerTy Op) as [[[B D]|]|]; reflexivity.
Qed.

(** Under 'r' the adapter fails even on an operand whose match would die
    on an assertion (a wrapper around a node that is no symbol): no match
    is attempted.  Under 'm' a frame slot plus eight gives its two
    operands. *)
Lemma inline_asm_only_memory_constraint_witness :
  let Bad := Wrapper i16 (OtherNode i16 7 []) in
  let N := ADD i16 (FrameIndex i16 false 5) (Constant i16 false 8) in
  SelectAddr nothing_known i16 Bad = Aborts
  ∧ SelectInlineAsmMemoryOperand nothing_known i16 Bad "r" [] = Returns (true, [])
  ∧ SelectInlineAsmMemoryOperand nothing_known i16 N "m" []
    = Returns (false, [Some (FrameIndex i16 true 5);
                       Some (Constant i16 true 8)]).
Proof.
  cbv zeta. refine (conj eq_refl (conj _ _)).
  - apply (inline_asm_only_memory_constraint nothing_known i16
             (Wrapper i16 (OtherNode i16 7 [])) "r" []).
    discriminate.
  - rewrite (proj2 (inline_asm_only_memory_constraint nothing_known i16
               (ADD i16 (FrameIndex i16 false 5) (Constant i16 false 8))
               "m" [])).
    reflexivity.
Defined.

(** Two values wrap to the same 16-bit integer exactly when they are
    congruent modulo 2^16. *)
Lemma int16_t_eq_iff (a b : Z) :
  int16_t a = int16_t b ↔ (a - b) mod 2 ^ 16 = 0.
Proof.
  unfold int16_t. split.
  - intros H.
    assert (E : (a + 2 ^ 15) mod 2 ^ 16 = (b + 2 ^ 15) mod 2 ^ 16) by lia.
    pose proof (Z.div_mod (a + 2 ^ 15) (2 ^ 16) ltac:(lia)) as Da.
    pose proof (Z.div_mod (b + 2 ^ 15) (2 ^ 16) ltac:(lia)) as Db.
    rewrite E in Da.
    replace (a - b)
      with (((a + 2 ^ 15) / 2 ^ 16 - (b + 2 ^ 15) / 2 ^ 16) * 2 ^ 16)
      by lia.
    apply Z_mod_mult.
  - intros H. f_equal.
    replace (a + 2 ^ 15) with ((b + 2 ^ 15) + (a - b)) by lia.
    rewrite Z.add_mod, H, Z.add_0_r, Z.mod_mod by lia. reflexivity.
Qed.

(** Matching the expression a second time into the mode the first match
    left adds the leaves once more. *)
Lemma rematch_accumulates (q : SDNode → Z → bool) (N : SDNode)
    (AM : MAPIPISelAddressMode) :
  const_expr N = true →
  ∃ AM1, MatchAddress q N AM = Returns (false, AM1)
         ∧ MatchAddress q N AM1
           = Returns (false,
                      set_Disp (int16_t (Disp AM + 2 * sum_leaves N)) AM).
Proof.
  intros H. eexists. split; [apply const_expr_fold, H|].
  rewrite (const_expr_fold q N H). simpl.
  rewrite int16_t_add_l. do 2 f_equal. unfold set_Disp. simpl.
  f_equal. f_equal. lia.
Qed.

(** C10, as stated, fails: folding is not idempotent.  The constant 1
    matched into the fresh mode gives displacement 1; the same node matched
    again into that mode gives displacement 2, another mode. *)
Lemma constant_rematch_counterexample :
  let N := Constant i16 false 1 in
  MatchAddress nothing_known N AM_init = Returns (false, set_Disp 1 AM_init)
  ∧ MatchAddress nothing_known N (set_Disp 1 AM_init)
    = Returns (false, set_Disp 2 AM_init)
  ∧ set_Disp 2 AM_init ≠ set_Disp 1 AM_init.
Proof.
  cbv zeta. refine (conj eq_refl (conj eq_refl _)). discriminate.
Qed.

(** C10, amended: a match of a constant expression succeeds and adds the
    sum of its leaves to the displacement, wrapping to 16 bits, whatever
    the bit analysis answers; matching the same expression again into the
    mode the first match left adds the sum a second time and changes
    nothing else, so that the second mode is the first exactly when the sum
    of the leaves is a multiple of 2^16. *)
Theorem constant_rematch_adds_again (q q' : SDNode → Z → bool) (N : SDNode)
    (AM : MAPIPISelAddressMode) :
  const_expr N = true →
  let AM1 := set_Disp (int16_t (Disp AM + sum_leaves N)) AM in
  let AM2 := set_Disp (int16_t (Disp AM + 2 * sum_leaves N)) AM in
  MatchAddress q N AM = Returns (false, AM1)
  ∧ MatchAddress q' N AM = Returns (false, AM1)
  ∧ MatchAddress q N AM1 = Returns (false, AM2)
  ∧ (AM2 = AM1 ↔ sum_leaves N mod 2 ^ 16 = 0).
Proof.
  intros H AM1 AM2.
  split; [apply const_expr_fold, H|].
  split; [apply const_expr_fold, H|].
  split.
  - unfold AM1. rewrite (const_expr_fold q N H). simpl.
    rewrite int16_t_add_l.
    replace (Disp AM + sum_leaves N + sum_leaves N)
      with (Disp AM + 2 * sum_leaves N) by lia.
    reflexivity.
  - assert (D : AM2 = AM1
                ↔ int16_t (Disp AM + 2 * sum_leaves N)
                  = int16_t (Disp AM + sum_leaves N)).
    { unfold AM2, AM1, set_Disp. split; [intros [= E]; exact E|].
      intros E. rewrite E. reflexivity. }
    rewrite D, int16_t_eq_iff.
    replace (Disp AM + 2 * sum_leaves N - (Disp AM + sum_leaves N))
      with (sum_leaves N) by lia.
    reflexivity.
Qed.

(** [5 + (-2)]: the second match moves the displacement from 3 to 6;
    [32768 + 32768]: the sum is 2^16 and the second match changes nothing. *)
Lemma constant_rematch_adds_again_witness :
  let N := ADD i16 (Constant i16 false 5) (Constant i16 false (-2)) in
  let M := ADD i16 (Constant i16 false 32768) (Constant i16 false 32768) in
  (MatchAddress nothing_known N AM_init = Returns (false, set_Disp 3 AM_init)
   ∧ MatchAddress all_known N AM_init = Returns (false, set_Disp 3 AM_init)
   ∧ MatchAddress nothing_known N (set_Disp 3 AM_init)
     = Returns (false, set_Disp 6 AM_init)
   ∧ (set_Disp 6 AM_init = set_Disp 3 AM_init ↔ 3 mod 2 ^ 16 = 0))
  ∧ (MatchAddress nothing_known M AM_init = Returns (false, AM_init)
     ∧ MatchAddress nothing_known M AM_init = Returns (false, AM_init)
     ∧ MatchAddress nothing_known M AM_init = Returns (false, AM_init)
     ∧ (AM_init = AM_init ↔ 65536 mod 2 ^ 16 = 0)).
Proof.
  cbv zeta. split.
  - exact (constant_rematch_adds_again nothing_known all_known
             (ADD i16 (Constant i16 false 5) (Constant i16 false (-2)))
             AM_init eq_refl).
  - exact (constant_rematch_adds_again nothing_known nothing_known
             (ADD i16 (Constant i16 false 32768) (Constant i16 false 32768))
             AM_init eq_refl).
Defined.

(** ** The node selector *)

Import Graph.

(** A node without operands adds no consumer to any node. *)
Lemma uses_insert_leaf (N id : NodeId) (n : DAGNode) (dag : SelectionDAG) :
  dag !! id = None → Operands n = [] →
  length (uses N (<[id := n]> dag)) = length (uses N dag).
Proof.
  intros Hid Hn. unfold uses. apply Permutation_length.
  apply filter_Permutation.
  rewrite (bind_Permutation _ _ _ (map_to_list_insert dag id n Hid)).
  simpl. rewrite Hn. reflexivity.
Qed.

Lemma fresh_lookup_None (dag : SelectionDAG) :
  dag !! (fresh (dom dag)) = None.
Proof. apply not_elem_of_dom, is_fresh. Qed.

Lemma fresh_ne (dag : SelectionDAG) (M : NodeId) :
  M ∈ dom dag → fresh (dom dag) ≠ M.
Proof. intros H E. rewrite <- E in H. exact (is_fresh (dom dag) H). Qed.

(** C9: [Select] leaves a machine node alone and returns null.  A frame
    index node of type [i16] is replaced by an [ADD16ri] machine node over
    the target frame index of its slot and the target constant zero, and
    no other node of the graph changes; with exactly one consumer the
    replacement is the node itself, rewritten in place; with any other
    number of consumers it is a node the graph did not have, and the frame
    index node is still there as it was. *)
Theorem Select_frame_index
    (SelectCode : NodeId → SelectionDAG
                  → Outcome (option NodeId * SelectionDAG))
    (dag : SelectionDAG) (Node : NodeId) (n : DAGNode) :
  dag !! Node = Some n →
  (isMachineOpcode n = true →
   Select SelectCode Node dag = Returns (None, dag))
  ∧ (∀ FI, Kind n = KFrameIndex false FI →
       ValueTypes n !! 0%nat = Some i16 →
       ∃ R dag', Select SelectCode Node dag = Returns (Some R, dag')
         ∧ is_frame_address_add dag' R FI
         ∧ (∀ M, M ∈ dom dag → M ≠ Node → dag' !! M = dag !! M)
         ∧ (length (uses Node dag) = 1%nat → R = Node)
         ∧ (length (uses Node dag) ≠ 1%nat →
            (R ∉ dom dag) ∧ dag' !! Node = Some n)).
Proof.
  intros HN. split.
  - intros HM. unfold Select. rewrite HN, HM. reflexivity.
  - intros FI HK HT.
    assert (HM : isMachineOpcode n = false)
      by (unfold isMachineOpcode; rewrite HK; reflexivity).
    assert (IN : Node ∈ dom dag) by (apply elem_of_dom; eauto).
    unfold Select. rewrite HN, HM, HK.
    destruct (decide (ValueTypes n !! 0%nat = Some i16)) as [_|C];
      [|contradiction].
    unfold getTargetFrameIndex, getTargetConstant, getMachineNode,
      SelectNodeTo, allocate.
    set (tfi := fresh (dom dag)).
    set (dag1 := <[tfi := mkNode (KFrameIndex true FI) [i16] []]> dag).
    set (zero := fresh (dom dag1)).
    set (dag2 := <[zero := mkNode (KConstant true 0) [i16] []]> dag1).
    assert (T0 : dag !! tfi = None) by apply fresh_lookup_None.
    assert (Z1 : dag1 !! zero = None) by apply fresh_lookup_None.
    assert (D1 : dom dag ⊆ dom dag1) by apply dom_insert_subseteq.
    assert (D2 : dom dag1 ⊆ dom dag2) by apply dom_insert_subseteq.
    assert (TN : tfi ≠ Node) by (apply fresh_ne, IN).
    assert (ZN : zero ≠ Node) by (apply fresh_ne, D1, IN).
    assert (ZT : zero ≠ tfi).
    { apply fresh_ne, elem_of_dom. unfold dag1.
      rewrite lookup_insert_eq. eauto. }
    assert (L1 : dag2 !! tfi
                 = Some (mkNode (KFrameIndex true FI) [i16] [])).
    { unfold dag2, dag1. rewrite lookup_insert_ne by exact ZT.
      apply lookup_insert_eq. }
    assert (L2 : dag2 !! zero = Some (mkNode (KConstant true 0) [i16] []))
      by apply lookup_insert_eq.
    assert (OLD : ∀ M, M ∈ dom dag → dag2 !! M = dag !! M).
    { intros M HMd. unfold dag2, dag1.
      rewrite lookup_insert_ne by (apply fresh_ne, D1, HMd).
      apply lookup_insert_ne, fresh_ne, HMd. }
    assert (U1 : length (uses Node dag1) = length (uses Node dag))
      by (apply uses_insert_leaf; [exact T0 | reflexivity]).
    unfold hasOneUse. rewrite U1.
    destruct (decide (length (uses Node dag) = 1%nat)) as [U|U].
    + rewrite bool_decide_eq_true_2 by exact U.
      eexists _, _. split; [reflexivity|].
      split; [|split; [|split; [reflexivity | contradiction]]].
      * exists tfi, zero. fold dag2.
        split; [apply lookup_insert_eq|].
        split; rewrite lookup_insert_ne by congruence; assumption.
      * intros M HMd HMN. fold dag2.
        rewrite lookup_insert_ne by congruence. apply OLD, HMd.
    + rewrite bool_decide_eq_false_2 by exact U.
      eexists _, _. split; [reflexivity|]. fold dag2.
      set (res := fresh (dom dag2)).
      assert (R2 : ∀ M, M ∈ dom dag2 → res ≠ M) by (intros M; apply fresh_ne).
      assert (IT : tfi ∈ dom dag2) by (apply elem_of_dom; eauto).
      assert (IZ : zero ∈ dom dag2) by (apply elem_of_dom; eauto).
      split; [|split; [|split; [contradiction | intros _; split]]].
      * exists tfi, zero. split; [apply lookup_insert_eq|].
        split; rewrite lookup_insert_ne by (apply R2; assumption);
          assumption.
      * intros M HMd HMN.
        rewrite lookup_insert_ne by (apply R2, D2, D1, HMd).
        apply OLD, HMd.
      * intros HR. apply (R2 res); [apply D2, D1, HR | reflexivity].
      * rewrite lookup_insert_ne by (apply R2, D2, D1, IN).
        rewrite OLD by exact IN. exact HN.
Qed.

(** Node 1 is the frame index of slot 5.  In [one_consumer] only node 2
    uses it and it is rewritten in place; in [two_consumers] nodes 2 and 3
    use it and the replacement is a node the graph did not have. *)
Lemma Select_frame_index_witness :
  (∃ dag', Select no_SelectCode 1%positive one_consumer
           = Returns (Some 1%positive, dag')
           ∧ is_frame_address_add dag' 1%positive 5)
  ∧ (∃ R dag', Select no_SelectCode 1%positive two_consumers
               = Returns (Some R, dag')
               ∧ is_frame_address_add dag' R 5
               ∧ (R ∉ dom two_consumers)
               ∧ dag' !! 1%positive = Some frame_slot_5)
  ∧ Select no_SelectCode 1%positive
      (<[1%positive := mkNode (KMachine ADD16ri) [i16] []]> ∅)
    = Returns (None, <[1%positive := mkNode (KMachine ADD16ri) [i16] []]> ∅).
Proof.
  refine (conj _ (conj _ _)).
  - destruct (proj2 (Select_frame_index no_SelectCode one_consumer
                       1%positive frame_slot_5 eq_refl) 5 eq_refl eq_refl)
      as (R & dag' & E & A & _ & One & _).
    rewrite (One eq_refl) in E, A. exists dag'. split; [exact E | exact A].
  - destruct (proj2 (Select_frame_index no_SelectCode two_consumers
                       1%positive frame_slot_5 eq_refl) 5 eq_refl eq_refl)
      as (R & dag' & E & A & _ & _ & Many).
    destruct Many as [New Old]; [vm_compute; discriminate|].
    exists R, dag'. auto.
  - apply (Select_frame_index no_SelectCode
             (<[1%positive := mkNode (KMachine ADD16ri) [i16] []]> ∅)
             1%positive (mkNode (KMachine ADD16ri) [i16] [])
             (lookup_insert_eq _ _ _)).
    reflexivity.
Defined.

(** ** Further properties of the matcher *)

Section MatcherExtras.

Variable q : SDNode → Z → bool.

(** The invariant lemma again, for properties that only survive a write of
    a wrapped value to the displacement. *)
Lemma MatchAddress_invariant_wrapped (P : MAPIPISelAddressMode → Prop) :
  (∀ AM b, P AM → P (set_Base b AM)) →
  (∀ AM z, P AM → P (set_Disp (int16_t z) AM)) →
  (∀ N AM r AM', P AM → MatchWrapper N AM = Returns (r, AM') → P AM') →
  ∀ N AM r AM', P AM → MatchAddress q N AM = Returns (r, AM') → P AM'.
Proof.
  intros PB PD PW.
  assert (B : ∀ M AM r AM', P AM →
            MatchAddressBase M AM = Returns (r, AM') → P AM').
  { intros M AM r AM' H. rewrite MatchAddressBase_outcome.
    unfold base_rule_outcome.
    destruct (base_is_free AM); intros [= <- <-]; auto. }
  induction N; intros AM r AM' H; try (apply B; exact H).
  - destruct isTarget; [apply B; exact H|]. simpl. expose.
    intros [= <- <-]. auto.
  - destruct isTarget; [apply B; exact H|]. cbn [MatchAddress].
    unfold bind, getAM. destruct (base_is_free AM); [|apply B; exact H].
    unfold putAM, ret. intros [= <- <-]. auto.
  - cbn [MatchAddress]. unfold bind at 1.
    destruct (MatchWrapper (Wrapper VT N) AM) as [[[] A1]|] eqn:E;
      [| |discriminate]; simpl; pose proof (PW _ _ _ _ H E) as H1.
    + apply B; exact H1.
    + unfold ret. intros [= <- <-]. exact H1.
  - intros E. destruct (ADD_inv q _ _ _ _ _ _ E) as [[_ K]|[[_ K]|K]];
      [| |exact (B _ _ _ _ H K)]; revert K; unfold try_order.
    + destruct (MatchAddress q N1 AM) as [[[] A1]|] eqn:E1; try discriminate.
      destruct (MatchAddress q N2 A1) as [[[] A2]|] eqn:E2; try discriminate.
      intros [= <-]. eauto.
    + destruct (MatchAddress q N2 AM) as [[[] A1]|] eqn:E1; try discriminate.
      destruct (MatchAddress q N1 A1) as [[[] A2]|] eqn:E2; try discriminate.
      intros [= <-]. eauto.
  - destruct N2; try (apply B; exact H).
    destruct (MatchAddress q N1 AM) as [[f A1]|] eqn:E1.
    + rewrite (OR_rule q _ _ _ _ _ _ _ _ E1).
      destruct (negb f && negb (nonnull (GV A1)) && q N1 Val).
      * intros [= <- <-]. apply PD. eapply IHN1; eassumption.
      * rewrite <- MatchAddressBase_outcome. apply B; exact H.
    + cbn [MatchAddress]. unfold bind at 1 2, getAM. rewrite E1.
      discriminate.
Qed.

End MatcherExtras.

(** X1: a match that reports failure has left the address mode exactly as
    it found it, and it found it with a committed base. *)
Theorem failed_match_changes_nothing (q : SDNode → Z → bool) (N : SDNode)
    (AM AM' : MAPIPISelAddressMode) :
  MatchAddress q N AM = Returns (true, AM') →
  AM' = AM ∧ base_is_free AM = false.
Proof.
  intros H. split.
  - assert (B : ∀ M, MatchAddressBase M AM = Returns (true, AM') → AM' = AM).
    { intros M. rewrite MatchAddressBase_outcome. unfold base_rule_outcome.
      destruct (base_is_free AM); congruence. }
    revert H. destruct N; try apply B.
    + destruct isTarget; [apply B|]. simpl. expose. discriminate.
    + destruct isTarget; [apply B|]. cbn [MatchAddress].
      unfold bind, getAM. destruct (base_is_free AM); [|apply B].
      expose. discriminate.
    + cbn [MatchAddress]. unfold bind at 1.
      destruct (MatchWrapper (Wrapper VT N) AM) as [[[] A1]|] eqn:E;
        [| |discriminate]; simpl.
      * destruct (MatchWrapper_base _ _ _ _ E) as [_ K].
        rewrite (K eq_refl). apply B.
      * unfold ret. discriminate.
    + intros H. destruct (ADD_inv q _ _ _ _ _ _ H) as [[K _]|[[K _]|T]];
        [discriminate K | discriminate K | exact (B _ T)].
    + destruct N2; try apply B.
      destruct (MatchAddress q N1 AM) as [[f A1]|] eqn:E1.
      * rewrite (OR_rule q _ _ _ _ _ _ _ _ E1).
        destruct (negb f && negb (nonnull (GV A1)) && q N1 Val);
          [discriminate|].
        rewrite <- MatchAddressBase_outcome. apply B.
      * cbn [MatchAddress]. unfold bind at 1 2, getAM. rewrite E1.
        discriminate.
  - destruct (base_is_free AM) eqn:F; [|reflexivity].
    discriminate (free_base_never_fails q N AM AM' true F H).
Qed.

Lemma failed_match_changes_nothing_witness :
  let AM5 := set_Disp 4 (set_Base (FrameIndexBase 5) AM_init) in
  let N := ADD i16 (OtherNode i16 7 []) (Constant i16 false 8) in
  MatchAddress nothing_known N AM5 = Returns (true, AM5)
  ∧ AM5 = AM5 ∧ base_is_free AM5 = false.
Proof.
  cbv zeta. split; [reflexivity|].
  exact (failed_match_changes_nothing nothing_known
           (ADD i16 (OtherNode i16 7 []) (Constant i16 false 8))
           (set_Disp 4 (set_Base (FrameIndexBase 5) AM_init))
           (set_Disp 4 (set_Base (FrameIndexBase 5) AM_init)) eq_refl).
Defined.

(** X2: of the four symbolic kinds the guard of [MatchWrapper] looks at (a
    global, a constant-pool entry, an external symbol, a jump table) at
    most one is populated after any fold, if at most one was before (as in
    the fresh mode, where none is). *)
Theorem guarded_symbols_exclude_each_other (q : SDNode → Z → bool)
    (N : SDNode) (AM AM' : MAPIPISelAddressMode) (r : bool) :
  (guarded_kinds AM ≤ 1)%nat →
  MatchAddress q N AM = Returns (r, AM') →
  (guarded_kinds AM' ≤ 1)%nat.
Proof. apply guarded_kinds_exclusive. Qed.

(** A wrapped global and a wrapped jump table: the global is recorded, the
    second wrapper is refused and becomes the base. *)
Lemma guarded_symbols_exclude_each_other_witness :
  let N := ADD i16 (Wrapper i16 (GlobalAddress i16 true "G1" 0 0))
             (Wrapper i16 (JumpTable i16 true 3 0)) in
  ∃ AM', MatchAddress nothing_known N AM_init = Returns (false, AM')
         ∧ JT AM' = -1
         ∧ (guarded_kinds AM' ≤ 1)%nat.
Proof.
  cbv zeta. eexists. split; [reflexivity|]. split; [reflexivity|].
  refine (guarded_symbols_exclude_each_other nothing_known
            (ADD i16 (Wrapper i16 (GlobalAddress i16 true "G1" 0 0))
               (Wrapper i16 (JumpTable i16 true 3 0)))
            AM_init _ false _ eq_refl).
  vm_compute. lia.
Defined.

Lemma base_taken_from_trans (X Y N : SDNode)
    (AM A1 AM' : MAPIPISelAddressMode) :
  (∀ M, walks_to X M → walks_to N M) →
  (∀ M, walks_to Y M → walks_to N M) →
  base_taken_from X AM A1 → base_taken_from Y A1 AM' →
  base_taken_from N AM AM'.
Proof.
  unfold base_taken_from. intros WX WY H1 H2.
  destruct H2 as [E2|[(VT & FI & W & E2)|(M & W & E2)]].
  - rewrite E2. destruct H1 as [E1|[(VT & FI & W & E1)|(M & W & E1)]].
    + left. exact E1.
    + right. left. exists VT, FI. auto.
    + right. right. exists M. auto.
  - right. left. exists VT, FI. auto.
  - right. right. exists M. auto.
Qed.

(** X3: whatever the fold of [N] leaves as the base was the base on entry
    or is taken from [N] itself: the slot of a frame index node, or a node,
    that [N] reaches through additions and the left operands of ORs. *)
Theorem base_is_part_of_the_address (q : SDNode → Z → bool) (N : SDNode)
    (AM AM' : MAPIPISelAddressMode) (r : bool) :
  MatchAddress q N AM = Returns (r, AM') → base_taken_from N AM AM'.
Proof.
  revert AM r AM'.
  assert (B : ∀ M AM r AM', MatchAddressBase M AM = Returns (r, AM') →
            base_taken_from M AM AM').
  { intros M AM r AM'. rewrite MatchAddressBase_outcome.
    unfold base_rule_outcome, base_taken_from.
    destruct (base_is_free AM); intros [= <- <-]; [|auto].
    right. right. exists M. split; [constructor|reflexivity]. }
  induction N; intros AM r AM'; try apply B.
  - destruct isTarget; [apply B|]. simpl. expose. intros [= <- <-].
    left. reflexivity.
  - destruct isTarget; [apply B|]. cbn [MatchAddress]. unfold bind, getAM.
    destruct (base_is_free AM); [|apply B].
    unfold putAM, ret. intros [= <- <-]. right. left.
    exists VT, FI. split; [constructor|reflexivity].
  - cbn [MatchAddress]. unfold bind at 1.
    destruct (MatchWrapper (Wrapper VT N) AM) as [[[] A1]|] eqn:E;
      [| |discriminate]; simpl;
      destruct (MatchWrapper_base _ _ _ _ E) as [K1 K2].
    + rewrite (K2 eq_refl). apply B.
    + unfold ret. intros [= <- <-]. left. exact K1.
  - intros H. destruct (ADD_inv q _ _ _ _ _ _ H) as [[_ T]|[[_ T]|T]];
      [| |exact (B _ _ _ _ T)]; revert T; unfold try_order.
    + destruct (MatchAddress q N1 AM) as [[[] A1]|] eqn:E1; try discriminate.
      destruct (MatchAddress q N2 A1) as [[[] A2]|] eqn:E2; try discriminate.
      intros [= <-].
      apply (base_taken_from_trans N1 N2 _ AM A1 A2); eauto;
        intros M W; [apply walks_add_0 | apply walks_add_1]; exact W.
    + destruct (MatchAddress q N2 AM) as [[[] A1]|] eqn:E1; try discriminate.
      destruct (MatchAddress q N1 A1) as [[[] A2]|] eqn:E2; try discriminate.
      intros [= <-].
      apply (base_taken_from_trans N2 N1 _ AM A1 A2); eauto;
        intros M W; [apply walks_add_1 | apply walks_add_0]; exact W.
  - destruct N2; try apply B.
    destruct (MatchAddress q N1 AM) as [[f A1]|] eqn:E1.
    + rewrite (OR_rule q _ _ _ _ _ _ _ _ E1).
      destruct (negb f && negb (nonnull (GV A1)) && q N1 Val).
      * intros [= <- <-].
        apply (base_taken_from_trans N1 N1 _ AM A1 _);
          try (intros M W; apply walks_or_0; exact W); eauto.
        left. reflexivity.
      * rewrite <- MatchAddressBase_outcome. apply B.
    + cbn [MatchAddress]. unfold bind at 1 2, getAM. rewrite E1.
      discriminate.
Qed.

Lemma base_is_part_of_the_address_witness :
  let X := OtherNode i16 7 [] in
  let N := ADD i16 (OR i16 X (Constant i16 false 3)) (Constant i16 false 8) in
  MatchAddress all_known N AM_init
  = Returns (false, set_Disp 11 (set_Base (RegBase (Some X)) AM_init))
  ∧ base_taken_from N AM_init
      (set_Disp 11 (set_Base (RegBase (Some X)) AM_init)).
Proof.
  cbv zeta. split; [reflexivity|].
  exact (base_is_part_of_the_address all_known
           (ADD i16 (OR i16 (OtherNode i16 7 []) (Constant i16 false 3))
              (Constant i16 false 8))
           AM_init _ false eq_refl).
Defined.

(** X4: once the mode holds one of the symbols the guard sees (a global, a
    constant-pool entry, an external symbol or a jump table), no fold
    changes its symbolic part: no field is replaced, cleared or added, and
    the alignment stays. *)
Theorem recorded_symbol_is_kept (q : SDNode → Z → bool) (N : SDNode)
    (AM AM' : MAPIPISelAddressMode) (r : bool) :
  hasSymbolicDisplacement AM = true →
  MatchAddress q N AM = Returns (r, AM') →
  symbolic_part AM' = symbolic_part AM.
Proof.
  intros S H.
  assert (K : hasSymbolicDisplacement AM' = true
              ∧ symbolic_part AM' = symbolic_part AM); [|apply K].
  revert H.
  apply (MatchAddress_invariant q
           (λ A, hasSymbolicDisplacement A = true
                 ∧ symbolic_part A = symbolic_part AM));
    [ intros A b K; exact K | intros A d K; exact K | | split; auto ].
  clear. intros N A r A' [S E]. expose. rewrite S.
  intros [= <- <-]. split; assumption.
Qed.

Lemma recorded_symbol_is_kept_witness :
  let AMG := set_GV (Some "G"%string) AM_init in
  let N := ADD i16 (Wrapper i16 (ExternalSymbol i16 true "memcpy" 0))
             (Wrapper i16 (BlockAddress i16 true 1%positive 0)) in
  ∃ AM', MatchAddress nothing_known N AMG = Returns (false, AM')
         ∧ symbolic_part AM' = symbolic_part AMG.
Proof.
  cbv zeta. eexists. split; [reflexivity|].
  exact (recorded_symbol_is_kept nothing_known
           (ADD i16 (Wrapper i16 (ExternalSymbol i16 true "memcpy" 0))
              (Wrapper i16 (BlockAddress i16 true 1%positive 0)))
           (set_GV (Some "G"%string) AM_init) _ false eq_refl eq_refl).
Defined.

(** X5: a displacement that fits the signed 16-bit immediate still fits it
    after any fold, whatever constants and symbol offsets were added. *)
Theorem displacement_stays_in_range (q : SDNode → Z → bool) (N : SDNode)
    (AM AM' : MAPIPISelAddressMode) (r : bool) :
  Disp_in_range AM →
  MatchAddress q N AM = Returns (r, AM') → Disp_in_range AM'.
Proof.
  apply (MatchAddress_invariant_wrapped q Disp_in_range).
  - intros A b K. exact K.
  - intros A z _. apply int16_t_range.
  - clear. intros N A r A' K. expose.
    destruct (hasSymbolicDisplacement A); [intros [= <- <-]; exact K|].
    destruct (getOperand N 0) as [[]|]; simpl; try discriminate;
      intros [= <- <-]; try exact K; apply int16_t_range.
Qed.

Lemma displacement_stays_in_range_witness :
  let N := ADD i16 (Wrapper i16 (GlobalAddress i16 true "G" 40000 0))
             (Constant i16 false 40000) in
  ∃ AM', MatchAddress nothing_known N AM_init = Returns (false, AM')
         ∧ Disp AM' = 14464 ∧ Disp_in_range AM'.
Proof.
  cbv zeta. eexists. split; [reflexivity|]. split; [reflexivity|].
  refine (displacement_stays_in_range nothing_known
            (ADD i16 (Wrapper i16 (GlobalAddress i16 true "G" 40000 0))
               (Constant i16 false 40000))
            AM_init _ false _ eq_refl).
  unfold Disp_in_range. simpl. lia.
Defined.

Lemma const_expr_wrappers_resolve (C : SDNode) :
  const_expr C = true → wrappers_resolve C = true.
Proof.
  induction C; simpl; try discriminate; [reflexivity|].
  intros H. apply andb_true_iff in H as [H1 H2]. rewrite IHC1, IHC2; auto.
Qed.

(** X6: the address "frame slot plus constants", with the frame index on
    either side of the addition, selects to the target frame index at
    pointer width and the target constant of the sum of the constants
    wrapped to 16 bits. *)
Theorem SelectAddr_frame_slot_plus_constants (q : SDNode → Z → bool)
    (PointerTy VT VT' : MVT) (FI : Z) (C : SDNode) :
  const_expr C = true →
  SelectAddr q PointerTy (ADD VT (FrameIndex VT' false FI) C)
  = Returns (Some (Some (FrameIndex PointerTy true FI),
                   Some (Constant i16 true (int16_t (sum_leaves C)))))
  ∧ SelectAddr q PointerTy (ADD VT C (FrameIndex VT' false FI))
    = Returns (Some (Some (FrameIndex PointerTy true FI),
                     Some (Constant i16 true (int16_t (sum_leaves C))))).
Proof.
  intros H. pose proof (const_expr_wrappers_resolve C H) as W.
  unfold SelectAddr. split.
  - rewrite (ADD_rule q VT (FrameIndex VT' false FI) C AM_init eq_refl W).
    unfold try_order. cbn [MatchAddress]. unfold bind at 1, getAM. simpl.
    unfold bind, putAM, ret. rewrite (const_expr_fold q C H). reflexivity.
  - rewrite (ADD_rule q VT C (FrameIndex VT' false FI) AM_init W eq_refl).
    unfold try_order. rewrite (const_expr_fold q C H).
    cbn [MatchAddress]. unfold bind at 1, getAM. simpl. reflexivity.
Qed.

Lemma SelectAddr_frame_slot_plus_constants_witness :
  SelectAddr nothing_known i32
    (ADD i16 (FrameIndex i16 false 5)
       (ADD i16 (Constant i16 false 32767) (Constant i16 false 2)))
  = Returns (Some (Some (FrameIndex i32 true 5),
                   Some (Constant i16 true (-32767)))).
Proof.
  exact (proj1 (SelectAddr_frame_slot_plus_constants nothing_known i32 i16
                  i16 5
                  (ADD i16 (Constant i16 false 32767) (Constant i16 false 2))
                  eq_refl)).
Defined.

(** X7: the address "wrapped global plus constants", with the global on
    either side of the addition, selects to the zero register and the
    target global address whose offset is the global's own offset plus the
    constants, wrapped to 16 bits. *)
Theorem SelectAddr_global_plus_constants (q : SDNode → Z → bool)
    (PointerTy VT VTw VTg : MVT) (t : bool) (G : GlobalValue)
    (Offset Flags : Z) (C : SDNode) :
  const_expr C = true →
  let W := Wrapper VTw (GlobalAddress VTg t G Offset Flags) in
  SelectAddr q PointerTy (ADD VT W C)
  = Returns (Some (Some (Register VT 0),
                   Some (GlobalAddress i16 true G
                           (int16_t (Offset + sum_leaves C)) 0)))
  ∧ SelectAddr q PointerTy (ADD VT C W)
    = Returns (Some (Some (Register VT 0),
                     Some (GlobalAddress i16 true G
                             (int16_t (Offset + sum_leaves C)) 0))).
Proof.
  intros H W. pose proof (const_expr_wrappers_resolve C H) as WC.
  unfold SelectAddr. split.
  - rewrite (ADD_rule q VT W C AM_init eq_refl WC).
    unfold try_order, W. cbn [MatchAddress]. unfold bind at 1.
    rewrite (MatchWrapper_global VTw VTg t G Offset Flags AM_init eq_refl).
    simpl. unfold ret. rewrite (const_expr_fold q C H). simpl.
    rewrite int16_t_add_l. reflexivity.
  - rewrite (ADD_rule q VT C W AM_init WC eq_refl).
    unfold try_order, W. rewrite (const_expr_fold q C H).
    cbn [MatchAddress]. unfold bind at 1.
    rewrite MatchWrapper_global by reflexivity.
    simpl. unfold ret. simpl.
    rewrite int16_t_add_l, (Z.add_comm (sum_leaves C)). reflexivity.
Qed.

Lemma SelectAddr_global_plus_constants_witness :
  SelectAddr nothing_known i16
    (ADD i16 (Wrapper i16 (GlobalAddress i16 true "G" 4 0))
       (Constant i16 false 2))
  = Returns (Some (Some (Register i16 0),
                   Some (GlobalAddress i16 true "G" 6 0))).
Proof.
  exact (proj1 (SelectAddr_global_plus_constants nothing_known i16 i16 i16
                  i16 true "G" 4 0 (Constant i16 false 2) eq_refl)).
Defined.

(** ** Properties of the tool runner *)

Import Tools.

Lemma string_append_assoc (a b c : string) :
  ((a +:+ b) +:+ c = a +:+ (b +:+ c)).
Proof.
  induction a as [|x a IH]; [reflexivity|].
  change (String x ((a +:+ b) +:+ c) = String x (a +:+ (b +:+ c))).
  f_equal. exact IH.
Qed.

Lemma string_append_empty_r (a : string) : (a +:+ ""%string) = a.
Proof.
  induction a as [|x a IH]; [reflexivity|].
  change (String x (a +:+ ""%string) = String x a). f_equal. exact IH.
Qed.

Lemma push_all_app {A : Type} (v xs : list A) : push_all v xs = v ++ xs.
Proof.
  unfold push_all, push_back. revert v.
  induction xs as [|x xs IH]; intros v; simpl.
  - rewrite app_nil_r. reflexivity.
  - rewrite IH, <- app_assoc. reflexivity.
Qed.

Lemma load_flags_app (v libs : list string) :
  foldl (λ v lib, push_back (push_back v "-load"%string) lib) v libs
  = v ++ (libs ≫= λ lib, ["-load"%string; lib]).
Proof.
  unfold push_back. revert v. induction libs as [|x xs IH]; intros v; simpl.
  - rewrite app_nil_r. reflexivity.
  - rewrite IH, <- !app_assoc. reflexivity.
Qed.

Lemma banner_fold (OS : string) (Args : list string) :
  foldl (λ OS Arg, OS +:+ " "%string +:+ Arg) OS Args
  = (OS +:+ command_line Args).
Proof.
  revert OS. induction Args as [|a Args IH]; intros OS; simpl.
  - rewrite string_append_empty_r. reflexivity.
  - rewrite IH. rewrite !string_append_assoc. reflexivity.
Qed.

(** Bring a history built event by event into the form [h ++ [...]]. *)
Ltac tidy := repeat rewrite <- app_assoc; cbn [app].

Lemma ProcessFailure_run (sys : System) (ProgPath : Path)
    (Args : list string) (h : list Event) :
  ProcessFailure sys ProgPath Args h
  = (Throws (failure_message sys ProgPath Args h),
     h ++ failure_trace sys ProgPath Args h).
Proof.
  unfold ProcessFailure, failure_message, failure_trace, error_file, tbind,
    makeUnique, RunProgramWithTimeout, readFile, destroyFile, emit, throw.
  cbv zeta. tidy. rewrite banner_fold.
  destruct (contents sys _); rewrite ?string_append_assoc; cbn [String.append];
    rewrite ?string_append_assoc, ?string_append_empty_r; reflexivity.
Qed.

(** X8: [ProcessFailure] never returns: it throws, after running the tool
    once more with its output and errors captured in a fresh file, which
    it destroys; the message is the command line after a banner, followed
    by what the file held if it could be opened. *)
Theorem ProcessFailure_always_throws (sys : System) (ProgPath : Path)
    (Args : list string) (h : list Event) :
  ProcessFailure sys ProgPath Args h
  = (Throws (failure_message sys ProgPath Args h),
     h ++ failure_trace sys ProgPath Args h).
Proof. apply ProcessFailure_run. Qed.

(** X9: the interpreter refuses shared libraries before it does anything;
    without them it runs [lli] once, forced to interpret, with the tool's
    own arguments before the bytecode and the program's after it, the
    output and the errors in the same file, under the time-out. *)
Theorem LLI_ExecuteProgram_outcome (sys : System) (this : LLI.LLI)
    (Bytecode : string) (Args : list string) (InputFile OutputFile : string)
    (SharedLibs : list string) (Timeout : N) (h : list Event) :
  let argv := ([LLI.LLIPath this; "-force-interpreter=true"%string]
               ++ LLI.ToolArgs this ++ [Bytecode] ++ Args) in
  let h1 := h ++ [Printed "<lli>"%string;
                  Ran (LLI.LLIPath this) argv InputFile OutputFile OutputFile
                    Timeout] in
  LLI.ExecuteProgram sys this Bytecode Args InputFile OutputFile SharedLibs
    Timeout h
  = match SharedLibs with
    | [] => (Done (exit_status sys h1), h1)
    | _ :: _ =>
        (Throws "LLI currently does not support loading shared libraries."%string,
         h)
    end.
Proof.
  unfold LLI.ExecuteProgram. destruct SharedLibs as [|l libs].
  - rewrite bool_decide_eq_true_2 by reflexivity. cbn [negb].
    unfold tbind, cout, emit, RunProgramWithTimeout.
    rewrite !push_all_app. unfold push_back. tidy. reflexivity.
  - rewrite bool_decide_eq_false_2 by discriminate. reflexivity.
Qed.

(** X10: the JIT runs [lli] once, forced not to interpret, and hands it
    every shared library, in order, each right after its own [-load], all
    of them after the tool's arguments and before the bytecode; the
    program's arguments come last. *)
Theorem JIT_ExecuteProgram_outcome (sys : System) (this : JIT.JIT)
    (Bytecode : string) (Args : list string) (InputFile OutputFile : string)
    (SharedLibs : list string) (Timeout : N) (h : list Event) :
  let argv := ([JIT.LLIPath this; "-force-interpreter=false"%string]
               ++ JIT.ToolArgs this
               ++ (SharedLibs ≫= λ lib, ["-load"%string; lib])
               ++ [Bytecode] ++ Args) in
  let h1 := h ++ [Printed "<jit>"%string;
                  Ran (JIT.LLIPath this) argv InputFile OutputFile OutputFile
                    Timeout] in
  JIT.ExecuteProgram sys this Bytecode Args InputFile OutputFile SharedLibs
    Timeout h
  = (Done (exit_status sys h1), h1)
  ∧ length argv
    = (3 + length (JIT.ToolArgs this) + 2 * length SharedLibs
       + length Args)%nat.
Proof.
  cbv zeta. split.
  - unfold JIT.ExecuteProgram, tbind, cout, emit, RunProgramWithTimeout.
    rewrite ?push_all_app, load_flags_app, ?push_all_app.
    unfold push_back. tidy. reflexivity.
  - cbn [app length]. rewrite !length_app. cbn [length].
    assert (L : length (SharedLibs ≫= λ lib, ["-load"%string; lib])
                = (2 * length SharedLibs)%nat).
    { induction SharedLibs as [|l libs IH]; [reflexivity|].
      cbn [mbind list_bind app length] in *. rewrite IH. lia. }
    rewrite L. lia.
Qed.

Lemma GCC_ExecuteProgram_run (cfg : Config) (sys : System) (this : GCC.GCC)
    (ProgramFile : string) (Args : list string) (fileType : GCC.FileType)
    (InputFile OutputFile : string) (SharedLibs : list string)
    (Timeout : N) (h : list Event) :
  let bin := unique_name sys h (ProgramFile +:+ ".gcc.exe"%string) in
  let argv := ([GCC.GCCPath this] ++ SharedLibs ++ ["-x"%string]
               ++ match fileType with
                  | GCC.CFile => ["c"%string; "-fno-strict-aliasing"%string]
                  | GCC.AsmFile => ["assembler"%string]
                  end
               ++ [ProgramFile; "-o"%string; bin; "-lm"%string; "-O2"%string]
               ++ (if HAVE_LINK_R cfg then ["-Wl,-R."%string] else [])) in
  let h1 := h ++ [MadeUnique (ProgramFile +:+ ".gcc.exe"%string) bin;
                  Printed "<gcc>"%string;
                  Ran (GCC.GCCPath this) argv ""%string ""%string ""%string 0] in
  let h2 := h1 ++ [Printed "<program>"%string;
                   Ran bin (bin :: Args) InputFile OutputFile OutputFile
                     Timeout] in
  GCC.ExecuteProgram cfg sys this ProgramFile Args fileType InputFile
    OutputFile SharedLibs Timeout h
  = if (exit_status sys h1 =? 0)%Z
    then (Done (exit_status sys h2), h2 ++ [RemoverGone bin])
    else (Throws (failure_message sys (GCC.GCCPath this) argv h1),
          h1 ++ failure_trace sys (GCC.GCCPath this) argv h1).
Proof.
  cbv zeta.
  unfold GCC.ExecuteProgram, tbind, makeUnique, cout, emit,
    RunProgramWithTimeout, with_FileRemover, tret, exit.
  rewrite !push_all_app. unfold push_back.
  destruct (HAVE_LINK_R cfg), fileType; tidy;
    match goal with
    | |- context [negb (exit_status sys ?H =? 0)%Z] =>
        destruct (exit_status sys H =? 0)%Z
    end; cbn [negb]; tidy;
    first [reflexivity | rewrite ProcessFailure_run; tidy; reflexivity].
Qed.

(** X11: [GCC::ExecuteProgram] compiles with [gcc] under no time-out, the
    shared libraries first and the language given by [-x]; if [gcc] fails
    the error is thrown (the process is never ended by [exit], and the
    binary is never run); if it succeeds the program that runs is the very
    file [gcc] was told to write, under the caller's time-out, with its
    output and errors in the same file, and the remover of the binary ends
    after the run. *)
Theorem GCC_ExecuteProgram_outcome (cfg : Config) (sys : System)
    (this : GCC.GCC) (ProgramFile : string) (Args : list string)
    (fileType : GCC.FileType) (InputFile OutputFile : string)
    (SharedLibs : list string) (Timeout : N) (h : list Event) :
  let bin := unique_name sys h (ProgramFile +:+ ".gcc.exe"%string) in
  let argv := ([GCC.GCCPath this] ++ SharedLibs ++ ["-x"%string]
               ++ match fileType with
                  | GCC.CFile => ["c"%string; "-fno-strict-aliasing"%string]
                  | GCC.AsmFile => ["assembler"%string]
                  end
               ++ [ProgramFile; "-o"%string; bin; "-lm"%string; "-O2"%string]
               ++ (if HAVE_LINK_R cfg then ["-Wl,-R."%string] else [])) in
  let h1 := h ++ [MadeUnique (ProgramFile +:+ ".gcc.exe"%string) bin;
                  Printed "<gcc>"%string;
                  Ran (GCC.GCCPath this) argv ""%string ""%string ""%string 0] in
  let h2 := h1 ++ [Printed "<program>"%string;
                   Ran bin (bin :: Args) InputFile OutputFile OutputFile
                     Timeout] in
  GCC.ExecuteProgram cfg sys this ProgramFile Args fileType InputFile
    OutputFile SharedLibs Timeout h
  = if (exit_status sys h1 =? 0)%Z
    then (Done (exit_status sys h2), h2 ++ [RemoverGone bin])
    else (Throws (failure_message sys (GCC.GCCPath this) argv h1),
          h1 ++ failure_trace sys (GCC.GCCPath this) argv h1).
Proof. apply GCC_ExecuteProgram_run. Qed.

(** X12: [GCC::MakeSharedObject] returns 0 or throws: its [return 1] is
    never reached, because [ProcessFailure] does not return.  It returns 0
    exactly when [gcc] succeeded, and the file name it reports is the one
    [gcc] was given after [-o]. *)
Theorem MakeSharedObject_returns_0_or_throws (cfg : Config) (sys : System)
    (this : GCC.GCC) (InputFile : string) (fileType : GCC.FileType)
    (h : list Event) :
  let out := unique_name sys h (InputFile +:+ LTDL_SHLIB_EXT cfg) in
  let argv :=
    [GCC.GCCPath this; "-x"%string;
     match fileType with
     | GCC.AsmFile => "assembler"%string
     | GCC.CFile => "c"%string
     end;
     "-fno-strict-aliasing"%string; InputFile]
    ++ match shared_flavour cfg with
       | Sparc => ["-G"%string]
       | ApplePowerPC =>
           ["-single_module"%string; "-dynamiclib"%string;
            "-undefined"%string; "dynamic_lookup"%string]
       | OtherHost => ["-shared"%string]
       end
    ++ (if needs_fPIC cfg then ["-fPIC"%string] else [])
    ++ ["-o"%string; out; "-O2"%string] in
  let h1 := h ++ [MadeUnique (InputFile +:+ LTDL_SHLIB_EXT cfg) out;
                  Printed "<gcc>"%string;
                  Ran (GCC.GCCPath this) argv ""%string ""%string ""%string 0] in
  GCC.MakeSharedObject cfg sys this InputFile fileType h
  = if (exit_status sys h1 =? 0)%Z
    then (Done (0%Z, out), h1)
    else (Throws (failure_message sys (GCC.GCCPath this) argv h1),
          h1 ++ failure_trace sys (GCC.GCCPath this) argv h1).
Proof.
  cbv zeta.
  unfold GCC.MakeSharedObject, tbind, makeUnique, cout, emit,
    RunProgramWithTimeout, tret.
  tidy.
  match goal with
  | |- context [negb (exit_status sys ?H =? 0)%Z] =>
      destruct (exit_status sys H =? 0)%Z
  end; cbn [negb]; tidy;
    first [reflexivity | rewrite ProcessFailure_run; tidy; reflexivity].
Qed.

Lemma LLC_OutputAsm_run (sys : System) (this : LLC.LLC) (Bytecode : string)
    (h : list Event) :
  let asm := unique_name sys h (Bytecode +:+ ".llc.s"%string) in
  let argv := [LLC.LLCPath this] ++ LLC.ToolArgs this
              ++ ["-o"%string; asm; "-f"%string; Bytecode] in
  let h1 := h ++ [MadeUnique (Bytecode +:+ ".llc.s"%string) asm;
                  Printed "<llc>"%string;
                  Ran (LLC.LLCPath this) argv ""%string ""%string ""%string 0] in
  LLC.OutputAsm sys this Bytecode h
  = if (exit_status sys h1 =? 0)%Z
    then (Done asm, h1)
    else (Throws (failure_message sys (LLC.LLCPath this) argv h1),
          h1 ++ failure_trace sys (LLC.LLCPath this) argv h1).
Proof.
  cbv zeta.
  unfold LLC.OutputAsm, tbind, makeUnique, cout, emit,
    RunProgramWithTimeout, tret.
  rewrite !push_all_app. unfold push_back. tidy.
  match goal with
  | |- context [negb (exit_status sys ?H =? 0)%Z] =>
      destruct (exit_status sys H =? 0)%Z
  end; cbn [negb]; tidy;
    first [reflexivity | rewrite ProcessFailure_run; tidy; reflexivity].
Qed.

Lemma CBE_OutputC_run (sys : System) (this : CBE.CBE) (Bytecode : string)
    (h : list Event) :
  let c := unique_name sys h (Bytecode +:+ ".cbe.c"%string) in
  let argv := [CBE.LLCPath this] ++ CBE.ToolArgs this
              ++ ["-o"%string; c; "-march=c"%string; "-f"%string; Bytecode] in
  let h1 := h ++ [MadeUnique (Bytecode +:+ ".cbe.c"%string) c;
                  Printed "<cbe>"%string;
                  Ran (CBE.LLCPath this) argv ""%string ""%string ""%string 0] in
  CBE.OutputC sys this Bytecode h
  = if (exit_status sys h1 =? 0)%Z
    then (Done c, h1)
    else (Throws (failure_message sys (CBE.LLCPath this) argv h1),
          h1 ++ failure_trace sys (CBE.LLCPath this) argv h1).
Proof.
  cbv zeta.
  unfold CBE.OutputC, tbind, makeUnique, cout, emit,
    RunProgramWithTimeout, tret.
  rewrite !push_all_app. unfold push_back. tidy.
  match goal with
  | |- context [negb (exit_status sys ?H =? 0)%Z] =>
      destruct (exit_status sys H =? 0)%Z
  end; cbn [negb]; tidy;
    first [reflexivity | rewrite ProcessFailure_run; tidy; reflexivity].
Qed.

(** X13: [compileProgram] of LLC and of CBE removes the file it had the
    tool write when the tool succeeded.  When the tool failed it throws,
    and among what it did the only file destroyed is the one the error
    messages were captured in: if the system gave that file a name other
    than the output file's, the output file is not destroyed. *)
Theorem compileProgram_cleans_up_on_success_only (sys : System)
    (llc : LLC.LLC) (cbe : CBE.CBE) (Bytecode : string) (h : list Event) :
  let asm := unique_name sys h (Bytecode +:+ ".llc.s"%string) in
  let c := unique_name sys h (Bytecode +:+ ".cbe.c"%string) in
  let llc_argv := [LLC.LLCPath llc] ++ LLC.ToolArgs llc
                  ++ ["-o"%string; asm; "-f"%string; Bytecode] in
  let cbe_argv := [CBE.LLCPath cbe] ++ CBE.ToolArgs cbe
                  ++ ["-o"%string; c; "-march=c"%string; "-f"%string;
                      Bytecode] in
  let llc_run := [MadeUnique (Bytecode +:+ ".llc.s"%string) asm;
                  Printed "<llc>"%string;
                  Ran (LLC.LLCPath llc) llc_argv ""%string ""%string
                    ""%string 0] in
  let cbe_run := [MadeUnique (Bytecode +:+ ".cbe.c"%string) c;
                  Printed "<cbe>"%string;
                  Ran (CBE.LLCPath cbe) cbe_argv ""%string ""%string
                    ""%string 0] in
  (if (exit_status sys (h ++ llc_run) =? 0)%Z
   then LLC.compileProgram sys llc Bytecode h
        = (Done (), h ++ llc_run ++ [Destroyed asm])
   else ∃ new,
          LLC.compileProgram sys llc Bytecode h
          = (Throws (failure_message sys (LLC.LLCPath llc) llc_argv
                       (h ++ llc_run)),
             h ++ new)
          ∧ new = llc_run
                  ++ failure_trace sys (LLC.LLCPath llc) llc_argv
                       (h ++ llc_run)
          ∧ (∀ p, Destroyed p ∈ new → p = error_file sys (h ++ llc_run))
          ∧ (error_file sys (h ++ llc_run) ≠ asm → Destroyed asm ∉ new))
  ∧ (if (exit_status sys (h ++ cbe_run) =? 0)%Z
     then CBE.compileProgram sys cbe Bytecode h
          = (Done (), h ++ cbe_run ++ [Destroyed c])
     else ∃ new,
            CBE.compileProgram sys cbe Bytecode h
            = (Throws (failure_message sys (CBE.LLCPath cbe) cbe_argv
                         (h ++ cbe_run)),
               h ++ new)
            ∧ new = cbe_run
                    ++ failure_trace sys (CBE.LLCPath cbe) cbe_argv
                         (h ++ cbe_run)
            ∧ (∀ p, Destroyed p ∈ new → p = error_file sys (h ++ cbe_run))
            ∧ (error_file sys (h ++ cbe_run) ≠ c → Destroyed c ∉ new)).
Proof.
  cbv zeta.
  assert (D : ∀ (run : list Event) P A h' p,
            (∀ q, Destroyed q ∉ run) →
            Destroyed p ∈ run ++ failure_trace sys P A h' →
            p = error_file sys h').
  { intros run P A h' p R. rewrite elem_of_app. intros [K|K].
    - destruct (R p K).
    - revert K. unfold failure_trace. cbv zeta.
      rewrite !elem_of_cons, elem_of_nil.
      intros [K|[K|[K|[K|[]]]]]; try discriminate K. congruence. }
  assert (R3 : ∀ (e1 e2 e3 : Event) q,
            (∀ p, e1 ≠ Destroyed p) → (∀ p, e2 ≠ Destroyed p) →
            (∀ p, e3 ≠ Destroyed p) → Destroyed q ∉ [e1; e2; e3]).
  { intros e1 e2 e3 q N1 N2 N3. rewrite !elem_of_cons, elem_of_nil.
    intros [K|[K|[K|[]]]]; symmetry in K;
      [exact (N1 _ K) | exact (N2 _ K) | exact (N3 _ K)]. }
  split.
  - unfold LLC.compileProgram, tbind. rewrite LLC_OutputAsm_run. cbv zeta.
    destruct (exit_status sys _ =? 0)%Z.
    + unfold destroyFile, emit. rewrite <- app_assoc. reflexivity.
    + eexists. split; [rewrite <- app_assoc; reflexivity|].
      split; [reflexivity|].
      assert (K : ∀ p, Destroyed p
                       ∈ [MadeUnique (Bytecode +:+ ".llc.s"%string)
                            (unique_name sys h (Bytecode +:+ ".llc.s"%string));
                          Printed "<llc>"%string;
                          Ran (LLC.LLCPath llc)
                            ([LLC.LLCPath llc] ++ LLC.ToolArgs llc
                             ++ ["-o"%string;
                                 unique_name sys h
                                   (Bytecode +:+ ".llc.s"%string);
                                 "-f"%string; Bytecode])
                            ""%string ""%string ""%string 0]
                         ++ failure_trace sys (LLC.LLCPath llc)
                              ([LLC.LLCPath llc] ++ LLC.ToolArgs llc
                               ++ ["-o"%string;
                                   unique_name sys h
                                     (Bytecode +:+ ".llc.s"%string);
                                   "-f"%string; Bytecode])
                              (h ++ [MadeUnique (Bytecode +:+ ".llc.s"%string)
                                       (unique_name sys h
                                          (Bytecode +:+ ".llc.s"%string));
                                     Printed "<llc>"%string;
                                     Ran (LLC.LLCPath llc)
                                       ([LLC.LLCPath llc] ++ LLC.ToolArgs llc
                                        ++ ["-o"%string;
                                            unique_name sys h
                                              (Bytecode +:+ ".llc.s"%string);
                                            "-f"%string; Bytecode])
                                       ""%string ""%string ""%string 0]) →
                     p = error_file sys
                           (h ++ [MadeUnique (Bytecode +:+ ".llc.s"%string)
                                    (unique_name sys h
                                       (Bytecode +:+ ".llc.s"%string));
                                  Printed "<llc>"%string;
                                  Ran (LLC.LLCPath llc)
                                    ([LLC.LLCPath llc] ++ LLC.ToolArgs llc
                                     ++ ["-o"%string;
                                         unique_name sys h
                                           (Bytecode +:+ ".llc.s"%string);
                                         "-f"%string; Bytecode])
                                    ""%string ""%string ""%string 0])).
      { intros p. apply D. intros q. apply R3; discriminate. }
      split; [exact K|].
      intros NE IN. apply NE. symmetry. exact (K _ IN).
  - unfold CBE.compileProgram, tbind. rewrite CBE_OutputC_run. cbv zeta.
    destruct (exit_status sys _ =? 0)%Z.
    + unfold destroyFile, emit. rewrite <- app_assoc. reflexivity.
    + eexists. split; [rewrite <- app_assoc; reflexivity|].
      split; [reflexivity|].
      match goal with
      | |- (∀ p, Destroyed p ∈ ?run ++ failure_trace sys ?P ?A ?h' → _) ∧ _ =>
          assert (K : ∀ p, Destroyed p ∈ run ++ failure_trace sys P A h' →
                           p = error_file sys h')
            by (intros p; apply D; intros q; apply R3; discriminate)
      end.
      split; [exact K|].
      intros NE IN. apply NE. symmetry. exact (K _ IN).
Qed.

(** On [bad_system] the assembly file is [prog.bc.llc.s-0] and the error
    messages are captured in [error_messages-0]: the assembly file is not
    among the files destroyed. *)
Lemma compileProgram_cleans_up_on_success_only_witness :
  let llc := LLC.new "/bin/llc"%string [] (GCC.new "/bin/gcc"%string) in
  ∃ msg new,
    LLC.compileProgram bad_system llc "prog.bc"%string [] = (Throws msg, new)
    ∧ (Destroyed "prog.bc.llc.s-0"%string ∉ new)
    ∧ (Destroyed "error_messages-0"%string ∈ new).
Proof.
  cbv zeta.
  pose proof (proj1 (compileProgram_cleans_up_on_success_only bad_system
                       (LLC.new "/bin/llc"%string []
                          (GCC.new "/bin/gcc"%string))
                       (CBE.new "/bin/llc"%string []
                          (GCC.new "/bin/gcc"%string))
                       "prog.bc"%string [])) as H.
  cbv zeta in H. change (exit_status bad_system _ =? 0)%Z with false in H.
  cbv iota in H. destruct H as (new & E & -> & _ & NOT).
  eexists _, _. split; [exact E|]. split.
  - apply NOT. discriminate.
  - apply list_elem_of_In. cbv. tauto.
Defined.

(** X14: [LLC::ExecuteProgram] has [llc] write assembly to a fresh file.
    If [llc] fails the error is thrown and [gcc] is not run.  If it
    succeeds, what runs next is [GCC::ExecuteProgram] on exactly that file,
    as assembler, with the caller's arguments, files, libraries and
    time-out; and the remover of the assembly file ends after it, whether
    [gcc] and the program returned or an error was thrown. *)
Theorem LLC_ExecuteProgram_outcome (cfg : Config) (sys : System)
    (this : LLC.LLC) (Bytecode : string) (Args : list string)
    (InputFile OutputFile : string) (SharedLibs : list string)
    (Timeout : N) (h : list Event) :
  let asm := unique_name sys h (Bytecode +:+ ".llc.s"%string) in
  let argv := [LLC.LLCPath this] ++ LLC.ToolArgs this
              ++ ["-o"%string; asm; "-f"%string; Bytecode] in
  let h1 := h ++ [MadeUnique (Bytecode +:+ ".llc.s"%string) asm;
                  Printed "<llc>"%string;
                  Ran (LLC.LLCPath this) argv ""%string ""%string ""%string 0] in
  LLC.ExecuteProgram cfg sys this Bytecode Args InputFile OutputFile
    SharedLibs Timeout h
  = if (exit_status sys h1 =? 0)%Z
    then
      let (r, h') :=
        GCC.ExecuteProgram cfg sys (LLC.gcc this) asm Args GCC.AsmFile
          InputFile OutputFile SharedLibs Timeout h1 in
      (r, h' ++ [RemoverGone asm])
    else (Throws (failure_message sys (LLC.LLCPath this) argv h1),
          h1 ++ failure_trace sys (LLC.LLCPath this) argv h1).
Proof.
  cbv zeta. unfold LLC.ExecuteProgram, tbind. rewrite LLC_OutputAsm_run.
  cbv zeta. destruct (exit_status sys _ =? 0)%Z; [|reflexivity].
  unfold with_FileRemover. rewrite GCC_ExecuteProgram_run. cbv zeta.
  destruct (exit_status sys _ =? 0)%Z; reflexivity.
Qed.

(** X15: the same for [CBE::ExecuteProgram]: [llc -march=c] writes C to a
    fresh file, and [gcc] compiles exactly that file as C. *)
Theorem CBE_ExecuteProgram_outcome (cfg : Config) (sys : System)
    (this : CBE.CBE) (Bytecode : string) (Args : list string)
    (InputFile OutputFile : string) (SharedLibs : list string)
    (Timeout : N) (h : list Event) :
  let c := unique_name sys h (Bytecode +:+ ".cbe.c"%string) in
  let argv := [CBE.LLCPath this] ++ CBE.ToolArgs this
              ++ ["-o"%string; c; "-march=c"%string; "-f"%string; Bytecode] in
  let h1 := h ++ [MadeUnique (Bytecode +:+ ".cbe.c"%string) c;
                  Printed "<cbe>"%string;
                  Ran (CBE.LLCPath this) argv ""%string ""%string ""%string 0] in
  CBE.ExecuteProgram cfg sys this Bytecode Args InputFile OutputFile
    SharedLibs Timeout h
  = if (exit_status sys h1 =? 0)%Z
    then
      let (r, h') :=
        GCC.ExecuteProgram cfg sys (CBE.gcc this) c Args GCC.CFile
          InputFile OutputFile SharedLibs Timeout h1 in
      (r, h' ++ [RemoverGone c])
    else (Throws (failure_message sys (CBE.LLCPath this) argv h1),
          h1 ++ failure_trace sys (CBE.LLCPath this) argv h1).
Proof.
  cbv zeta. unfold CBE.ExecuteProgram, tbind. rewrite CBE_OutputC_run.
  cbv zeta. destruct (exit_status sys _ =? 0)%Z; [|reflexivity].
  unfold with_FileRemover. rewrite GCC_ExecuteProgram_run. cbv zeta.
  destruct (exit_status sys _ =? 0)%Z; reflexivity.
Qed.

(** The whole pipeline where every tool succeeds. *)
Example LLC_pipeline_on_good_system :
  LLC.ExecuteProgram (Build_Config false ".so"%string OtherHost false) good_system
    (LLC.new "/bin/llc"%string ["-O3"%string] (GCC.new "/bin/gcc"%string))
    "prog.bc"%string ["1"%string; "2"%string] "in.txt"%string "out.txt"%string [] 10 []
  = (Done 0%Z,
     [MadeUnique "prog.bc.llc.s"%string "prog.bc.llc.s-0"%string; Printed "<llc>"%string;
      Ran "/bin/llc"%string ["/bin/llc"%string; "-O3"%string; "-o"%string; "prog.bc.llc.s-0"%string; "-f"%string;
                      "prog.bc"%string] ""%string ""%string ""%string 0;
      MadeUnique "prog.bc.llc.s-0.gcc.exe"%string "prog.bc.llc.s-0.gcc.exe-0"%string;
      Printed "<gcc>"%string;
      Ran "/bin/gcc"%string ["/bin/gcc"%string; "-x"%string; "assembler"%string; "prog.bc.llc.s-0"%string; "-o"%string;
                      "prog.bc.llc.s-0.gcc.exe-0"%string; "-lm"%string; "-O2"%string] ""%string ""%string ""%string 0;
      Printed "<program>"%string;
      Ran "prog.bc.llc.s-0.gcc.exe-0"%string ["prog.bc.llc.s-0.gcc.exe-0"%string; "1"%string; "2"%string]
        "in.txt"%string "out.txt"%string "out.txt"%string 10;
      RemoverGone "prog.bc.llc.s-0.gcc.exe-0"%string;
      RemoverGone "prog.bc.llc.s-0"%string]).
Proof. reflexivity. Qed.

(** X16: [createLLC] and [createCBE] answer alike.  Without [llc] they
    return null and say so.  With [llc] but without [gcc] they do not
    return: they print the message of [GCC::create] and end the process
    with status 1.  With both they return the object, and the message is
    the one about [gcc]: the one about [llc] is overwritten. *)
Theorem createLLC_outcome (sys : System) (ProgramPath : string)
    (Args : option (list string)) (h : list Event) :
  let h1 := h ++ [Looked "llc"%string ProgramPath] in
  let h2 := h1 ++ [Looked "gcc"%string ProgramPath] in
  createLLC sys ProgramPath Args h
  = (if bool_decide (found sys h1 = ""%string) then
       (Done (None,
              "Cannot find `llc' in executable directory or PATH!"%string +:+ NL),
        h1)
     else if bool_decide (found sys h2 = ""%string) then
       (Exits 1,
        h2 ++ [Complained
                 (("Cannot find `gcc' in executable directory or PATH!"%string
                   +:+ NL) +:+ NL)])
     else
       (Done (Some (found sys h1, GCC.new (found sys h2), Args),
              "Found gcc: "%string +:+ found sys h2 +:+ NL),
        h2))
  ∧ createCBE sys ProgramPath Args h = createLLC sys ProgramPath Args h.
Proof.
  cbv zeta. split; [|reflexivity].
  unfold createLLC, GCC.create, tbind, FindExecutable, tret, cerr, emit, exit.
  cbv zeta. destruct (bool_decide (found sys (h ++ _) = ""%string));
    [reflexivity|].
  destruct (bool_decide (found sys ((h ++ _) ++ _) = ""%string)); reflexivity.
Qed.

(** X17: [createLLI] and [createJIT] return null, with the message that
    [lli] cannot be found, exactly when [FindExecutable] finds nothing.
    Otherwise the interpreter they return runs the executable that was
    found, with the tool arguments given at creation (none for a null
    vector) between the mode flag and the bytecode. *)
Theorem created_interpreter_runs_what_was_found (sys : System)
    (ProgPath : string) (ToolArgs : option (list string)) (h : list Event) :
  let h1 := h ++ [Looked "lli"%string ProgPath] in
  let lli := found sys h1 in
  (lli = ""%string →
   createLLI sys ProgPath ToolArgs h
   = (Done (None, "Cannot find `lli' in executable directory or PATH!"%string +:+ NL),
      h1)
   ∧ createJIT sys ProgPath ToolArgs h
     = (Done (None,
              "Cannot find `lli' in executable directory or PATH!"%string +:+ NL),
        h1))
  ∧ (lli ≠ ""%string →
     ∃ I J,
       createLLI sys ProgPath ToolArgs h
       = (Done (Some I, "Found lli: "%string +:+ lli +:+ NL), h1)
       ∧ createJIT sys ProgPath ToolArgs h
         = (Done (Some J, "Found lli: "%string +:+ lli +:+ NL), h1)
       ∧ ∀ Bytecode Args InputFile OutputFile Timeout h',
           LLI.ExecuteProgram sys I Bytecode Args InputFile OutputFile []
             Timeout h'
           = (let hr := h' ++ [Printed "<lli>"%string;
                               Ran lli
                                 ([lli; "-force-interpreter=true"%string]
                                  ++ ToolArgs_of ToolArgs ++ [Bytecode]
                                  ++ Args)
                                 InputFile OutputFile OutputFile Timeout] in
              (Done (exit_status sys hr), hr))
           ∧ JIT.ExecuteProgram sys J Bytecode Args InputFile OutputFile []
               Timeout h'
             = (let hr := h' ++ [Printed "<jit>"%string;
                                 Ran lli
                                   ([lli; "-force-interpreter=false"%string]
                                    ++ ToolArgs_of ToolArgs ++ [Bytecode]
                                    ++ Args)
                                   InputFile OutputFile OutputFile Timeout] in
                (Done (exit_status sys hr), hr))).
Proof.
  cbv zeta. split.
  - intros E. unfold createLLI, createJIT, tbind, FindExecutable, tret.
    cbv zeta. rewrite E. split; reflexivity.
  - intros E. unfold createLLI, createJIT, tbind, FindExecutable, tret.
    cbv zeta. rewrite bool_decide_eq_false_2 by exact E. cbn [negb].
    eexists _, _. split; [reflexivity|]. split; [reflexivity|].
    intros Bytecode Args InputFile OutputFile Timeout h'. split.
    + unfold LLI.ExecuteProgram.
      rewrite bool_decide_eq_true_2 by reflexivity. cbn [negb].
      unfold tbind, cout, emit, RunProgramWithTimeout.
      rewrite !push_all_app. unfold push_back. tidy. reflexivity.
    + unfold JIT.ExecuteProgram, tbind, cout, emit, RunProgramWithTimeout.
      rewrite ?push_all_app. unfold push_back. cbn [foldl].
      rewrite ?push_all_app. tidy. reflexivity.
Qed.

Lemma created_interpreter_runs_what_was_found_witness :
  ∃ I, createLLI good_system "/opt/bugpoint"%string None []
       = (Done (Some I, "Found lli: /bin/lli"%string +:+ NL),
          [Looked "lli"%string "/opt/bugpoint"%string])
       ∧ LLI.ExecuteProgram good_system I "prog.bc"%string ["7"%string] "in"%string "out"%string [] 5 []
         = (Done 0%Z,
            [Printed "<lli>"%string;
             Ran "/bin/lli"%string
               ["/bin/lli"%string; "-force-interpreter=true"%string; "prog.bc"%string; "7"%string]
               "in"%string "out"%string "out"%string 5]).
Proof.
  destruct (proj2 (created_interpreter_runs_what_was_found good_system
                     "/opt/bugpoint"%string None []))
    as (I & J & EI & _ & R); [discriminate|].
  exists I. split; [exact EI|].
  exact (proj1 (R "prog.bc"%string ["7"%string] "in"%string "out"%string 5%N [])).
Defined.
